(** * ArrayBase: coefficient-wise operators over dense storage

    A shallow embedding of [Eigen/src/Array/ArrayBase.h].  Expression
    templates become type-class instances over a shared memory of dense
    containers; the operators of [ArrayBase<Derived>] become computations
    in a small state-and-abort monad. *)

From Stdlib Require Import ZArith Lia PrimFloat.
From stdpp Require Import base option list gmap.

(** ** Scalars

    [ArrayBase.h] names the four combining functors
    [ei_scalar_sum_op], [ei_scalar_difference_op], [ei_scalar_product_op]
    and [ei_scalar_quotient_op] but their bodies live in another header, so
    they are the methods of the scalar's traits. *)
Class NumTraits (Scalar : Type) := {
  ei_scalar_sum_op : Scalar → Scalar → Scalar;
  ei_scalar_difference_op : Scalar → Scalar → Scalar;
  ei_scalar_product_op : Scalar → Scalar → Scalar;
  ei_scalar_quotient_op : Scalar → Scalar → Scalar
}.

(** Exact scalar arithmetic: subtraction undoes addition. *)
Class ExactScalar (Scalar : Type) `{!NumTraits Scalar} := {
  difference_sum :
    ∀ a b : Scalar, ei_scalar_difference_op (ei_scalar_sum_op a b) b = a
}.

Section Model.
Context {Scalar : Type} `{!NumTraits Scalar}.

(** ** Dense storage and memory *)

(** Modelled from the spec: the concrete container (section 3, external to
    [ArrayBase.h]) owns a contiguous buffer of scalars and exposes its row
    count, column count and indexed coefficients.  The buffer is laid out
    column by column, the default of [PlainObject]. *)
Record DenseStorage := {
  m_rows : nat;
  m_cols : nat;
  m_data : list Scalar
}.

(** Containers live in a memory and are reached through their address, so
    that two expression handles may denote the same storage. *)
Local Abbreviation Memory := (gmap nat DenseStorage).

(** ** Outcomes: completion, fatal assertion, undefined behaviour *)
Inductive Outcome (R : Type) :=
  | Done (r : R) (m : Memory)
  | AssertFailed (m : Memory)
  | Undefined.
Arguments Done {R} r m.
Arguments AssertFailed {R} m.
Arguments Undefined {R}.

Definition M (R : Type) := Memory → Outcome R.

Definition M_ret {R} (r : R) : M R := λ m, Done r m.

Definition M_bind {R S} (k : R → M S) (c : M R) : M S :=
  λ m, match c m with
       | Done r m' => k r m'
       | AssertFailed m' => AssertFailed m'
       | Undefined => Undefined
       end.

#[export] Instance M_mret : MRet M := @M_ret.
#[export] Instance M_mbind : MBind M := @M_bind.

(** The memory an outcome leaves behind, when there is one. *)
Definition final_memory {R} (o : Outcome R) : option Memory :=
  match o with
  | Done _ m => Some m
  | AssertFailed m => Some m
  | Undefined => None
  end.

(** The value an outcome returns, when it completes. *)
Definition returned {R} (o : Outcome R) : option R :=
  match o with
  | Done r _ => Some r
  | _ => None
  end.

(** [ei_assert]: a fatal assertion; the memory is left as it was. *)
Definition ei_assert (b : bool) : M unit :=
  λ m, if b then Done tt m else AssertFailed m.

(** Lifting a read that is undefined behaviour when it fails. *)
Definition M_read {R} (f : Memory → option R) : M R :=
  λ m, match f m with
       | Some r => Done r m
       | None => Undefined
       end.

(** Lifting a write that is undefined behaviour when it fails. *)
Definition M_write (f : Memory → option Memory) : M unit :=
  λ m, match f m with
       | Some m' => Done tt m'
       | None => Undefined
       end.

Fixpoint for_each {X} (l : list X) (body : X → M unit) : M unit :=
  match l with
  | [] => mret tt
  | x :: l' => body x ;; for_each l' body
  end.

(** ** The dense-expression interface *)

(** Modelled from the spec: [DenseBase<Derived>] (section 4.1: shape queries
    and coefficient access forwarded from the shared dense-expression
    contract).  A query on a dangling handle, or a coefficient outside the
    shape, has no value. *)
Class DenseBase (Derived : Type) := {
  rows : Derived → Memory → option nat;
  cols : Derived → Memory → option nat;
  coeff : Derived → Memory → nat → nat → option Scalar
}.

(** [class ArrayBase : public DenseBase<Derived>] *)
Class ArrayBase (Derived : Type) := {
  ArrayBase_DenseBase :: DenseBase Derived
}.

(** Modelled from the spec: the matrix capability (section 4.4), the base
    of what [matrix()] returns. *)
Class MatrixBase (Derived : Type) := {
  MatrixBase_DenseBase :: DenseBase Derived
}.

Definition size {Derived} `{!DenseBase Derived} (x : Derived) (m : Memory)
  : option nat :=
  r ← rows x m; c ← cols x m; Some (r * c).

(** The CRTP downcast. *)
Definition derived {Derived : Type} (this : Derived) : Derived := this.

(** ** The concrete container [Array] *)

(** Modelled from the spec: the concrete array (section 3), a handle on a
    [DenseStorage] of the memory. *)
Record Array := { m_storage : nat }.

Definition Array_rows (a : Array) (m : Memory) : option nat :=
  m_rows <$> m !! m_storage a.

Definition Array_cols (a : Array) (m : Memory) : option nat :=
  m_cols <$> m !! m_storage a.

Definition Array_coeff (a : Array) (m : Memory) (i j : nat) : option Scalar :=
  c ← m !! m_storage a;
  if decide (i < m_rows c ∧ j < m_cols c)
  then m_data c !! (i + j * m_rows c)
  else None.

(** [coeffRef(i,j) = v] *)
Definition Array_coeffRef_set (a : Array) (i j : nat) (v : Scalar)
    (m : Memory) : option Memory :=
  c ← m !! m_storage a;
  if decide (i < m_rows c ∧ j < m_cols c ∧ i + j * m_rows c < length (m_data c))
  then Some (<[m_storage a :=
               {| m_rows := m_rows c; m_cols := m_cols c;
                  m_data := <[i + j * m_rows c := v]> (m_data c) |}]> m)
  else None.

#[export] Instance Array_ArrayBase : ArrayBase Array :=
  {| ArrayBase_DenseBase :=
       {| rows := Array_rows; cols := Array_cols; coeff := Array_coeff |} |}.

(** ** Expression nodes *)

(** Modelled from the spec: the unary expression node (section 4.2), whose
    coefficient is [transform(operand.coeff(i, j))]. *)
Record CwiseUnaryOp (XprType : Type) := {
  un_functor : Scalar → Scalar;
  un_xpr : XprType
}.
Arguments un_functor {XprType} _.
Arguments un_xpr {XprType} _.

Definition CwiseUnaryOp_coeff {X} `{!DenseBase X} (e : CwiseUnaryOp X)
    (m : Memory) (i j : nat) : option Scalar :=
  un_functor e <$> coeff (un_xpr e) m i j.

#[export] Instance CwiseUnaryOp_ArrayBase {X} `{!ArrayBase X}
  : ArrayBase (CwiseUnaryOp X) :=
  {| ArrayBase_DenseBase :=
       {| rows := λ e, rows (un_xpr e);
          cols := λ e, cols (un_xpr e);
          coeff := CwiseUnaryOp_coeff |} |}.

(** Modelled from the spec: the binary expression node (section 4.2), whose
    coefficient is [combine(lhs.coeff(i, j), rhs.coeff(i, j))]; its shape is
    derived from its operands. *)
Record CwiseBinaryOp (Lhs Rhs : Type) := {
  bin_functor : Scalar → Scalar → Scalar;
  bin_lhs : Lhs;
  bin_rhs : Rhs
}.
Arguments bin_functor {Lhs Rhs} _.
Arguments bin_lhs {Lhs Rhs} _.
Arguments bin_rhs {Lhs Rhs} _.

Definition CwiseBinaryOp_coeff {L R} `{!DenseBase L, !DenseBase R}
    (e : CwiseBinaryOp L R) (m : Memory) (i j : nat) : option Scalar :=
  a ← coeff (bin_lhs e) m i j;
  b ← coeff (bin_rhs e) m i j;
  Some (bin_functor e a b).

#[export] Instance CwiseBinaryOp_ArrayBase {L R} `{!ArrayBase L, !ArrayBase R}
  : ArrayBase (CwiseBinaryOp L R) :=
  {| ArrayBase_DenseBase :=
       {| rows := λ e, rows (bin_lhs e);
          cols := λ e, cols (bin_lhs e);
          coeff := CwiseBinaryOp_coeff |} |}.

(** Modelled from the spec: the view duality wrapper (section 4.4) that
    [ArrayBase.h] only declares ([template<typename ExpressionType> class
    MatrixWrapper;]).  It binds one expression handle and forwards shape and
    coefficients to it. *)
Record MatrixWrapper (ExpressionType : Type) := {
  mw_expression : ExpressionType
}.
Arguments mw_expression {ExpressionType} _.

#[export] Instance MatrixWrapper_MatrixBase {E} `{!ArrayBase E}
  : MatrixBase (MatrixWrapper E) :=
  {| MatrixBase_DenseBase :=
       {| rows := λ w, rows (mw_expression w);
          cols := λ w, cols (mw_expression w);
          coeff := λ w, coeff (mw_expression w) |} |}.

(** Modelled from the spec: the complementary wrapper (section 4.4, "the
    symmetric conversion (matrix→array) is provided by the complementary
    wrapper type"). *)
Record ArrayWrapper (ExpressionType : Type) := {
  aw_expression : ExpressionType
}.
Arguments aw_expression {ExpressionType} _.

#[export] Instance ArrayWrapper_ArrayBase {E} `{!MatrixBase E}
  : ArrayBase (ArrayWrapper E) :=
  {| ArrayBase_DenseBase :=
       {| rows := λ w, rows (aw_expression w);
          cols := λ w, cols (aw_expression w);
          coeff := λ w, coeff (aw_expression w) |} |}.

(** Modelled from the spec: a permuted view (section 4.3, "a
    shifted/permuted view of destination as the source is unsafe"): the
    transpose reads its operand at the swapped index. *)
Record Transpose (MatrixType : Type) := {
  tr_matrix : MatrixType
}.
Arguments tr_matrix {MatrixType} _.

#[export] Instance Transpose_ArrayBase {E} `{!ArrayBase E}
  : ArrayBase (Transpose E) :=
  {| ArrayBase_DenseBase :=
       {| rows := λ w, cols (tr_matrix w);
          cols := λ w, rows (tr_matrix w);
          coeff := λ w m i j, coeff (tr_matrix w) m j i |} |}.

(** ** Shape checks *)

Definition shape {D} `{!DenseBase D} (x : D) (m : Memory)
  : option (nat * nat) :=
  r ← rows x m; c ← cols x m; Some (r, c).

(** Modelled from the spec: the composition-shape check (sections 4.1 and
    7): operands of unequal dimensions fail a fatal run-time assertion. *)
Definition assert_same_size {L R} `{!DenseBase L, !DenseBase R}
    (l : L) (r : R) : M unit :=
  sl ← M_read (shape l);
  sr ← M_read (shape r);
  ei_assert (bool_decide (sl = sr)).

(** ** Binary and scalar operators (the cwise plugins) *)

(** Modelled from the spec: the constructor of a binary node (section 3, "a
    binary node's operand shapes must be compatible"; section 4.1, "fails at
    composition"). *)
Definition CwiseBinaryOp_new {L R} `{!DenseBase L, !DenseBase R}
    (f : Scalar → Scalar → Scalar) (l : L) (r : R) : M (CwiseBinaryOp L R) :=
  assert_same_size l r;;
  mret {| bin_functor := f; bin_lhs := l; bin_rhs := r |}.

(** Modelled from the spec: [operator+], [operator-], [operator*] and
    [operator/] between two expressions, which the included plugins
    define (section 6): each returns a lazy expression node. *)
Definition operator_plus {L R} `{!ArrayBase L, !ArrayBase R} (l : L) (r : R)
  : M (CwiseBinaryOp L R) :=
  CwiseBinaryOp_new ei_scalar_sum_op (derived l) (derived r).

Definition operator_minus {L R} `{!ArrayBase L, !ArrayBase R} (l : L) (r : R)
  : M (CwiseBinaryOp L R) :=
  CwiseBinaryOp_new ei_scalar_difference_op (derived l) (derived r).

Definition operator_times {L R} `{!ArrayBase L, !ArrayBase R} (l : L) (r : R)
  : M (CwiseBinaryOp L R) :=
  CwiseBinaryOp_new ei_scalar_product_op (derived l) (derived r).

Definition operator_div {L R} `{!ArrayBase L, !ArrayBase R} (l : L) (r : R)
  : M (CwiseBinaryOp L R) :=
  CwiseBinaryOp_new ei_scalar_quotient_op (derived l) (derived r).

(** Modelled from the spec: [operator+] and [operator-] with a scalar
    (section 4.2, "adding a scalar broadcasts it to every coefficient,
    irrespective of the other operand's shape"). *)
Definition operator_plus_scalar {D} `{!ArrayBase D} (x : D) (scalar : Scalar)
  : CwiseUnaryOp D :=
  {| un_functor := λ a, ei_scalar_sum_op a scalar; un_xpr := derived x |}.

Definition operator_minus_scalar {D} `{!ArrayBase D} (x : D) (scalar : Scalar)
  : CwiseUnaryOp D :=
  {| un_functor := λ a, ei_scalar_difference_op a scalar; un_xpr := derived x |}.

(** ** Materialization *)

(** Modelled from the spec: the materialization loop (section 4.2), one pass
    over the destination's index range, column by column, one coefficient
    at a time. *)
Definition ei_assign_impl_run (copyCoeff : nat → nat → M unit)
    (innerSize outerSize : nat) : M unit :=
  for_each (seq 0 outerSize) (λ outer,
    for_each (seq 0 innerSize) (λ inner, copyCoeff inner outer)).

(** Modelled from the spec: plain copy of one coefficient,
    [dst.coeffRef(i,j) = src.coeff(i,j)]. *)
Definition Array_copyCoeff {O} `{!DenseBase O} (dst : Array) (i j : nat)
    (src : O) : M unit :=
  v ← M_read (λ m, coeff src m i j);
  M_write (Array_coeffRef_set dst i j v).

(** Modelled from the spec: lazy assignment into a container (section 6,
    "materializes the source into the destination's storage"), guarded by
    the shape check of section 7. *)
Definition Array_lazyAssign {O} `{!DenseBase O} (dst : Array) (src : O)
  : M Array :=
  assert_same_size dst src;;
  s ← M_read (shape dst);
  ei_assign_impl_run (λ i j, Array_copyCoeff dst i j src) s.1 s.2;;
  mret dst.

(** Modelled from the spec: the assignment-selection dispatch (section 4.1)
    that both assignment operators forward to. *)
Definition ei_assign_selector_run {O} `{!DenseBase O} (dst : Array) (src : O)
  : M Array :=
  Array_lazyAssign dst src.

(** Modelled from the spec: the generic template assignment
    [DenseBase::operator=] brought in by [using Base::operator=] (section
    4.1, "the same dispatch the generic template assignment uses"). *)
Definition DenseBase_operator_assign {O} `{!DenseBase O} (this : Array)
    (other : O) : M Array :=
  ei_assign_selector_run (derived this) (derived other).

(** ** The in-place update target *)

(** Modelled from the spec: the in-place update target (sections 3 and
    4.3): one destination handle and one combining function. *)
Record SelfCwiseBinaryOp := {
  self_matrix : Array;
  self_functor : Scalar → Scalar → Scalar
}.

(** Constructor [SelfCwiseBinaryOp<Op, Derived> tmp(derived())]. *)
Definition SelfCwiseBinaryOp_new (f : Scalar → Scalar → Scalar) (xpr : Array)
  : SelfCwiseBinaryOp :=
  {| self_matrix := xpr; self_functor := f |}.

(** Modelled from the spec: [destination.coeff(i,j) =
    combine(destination.coeff(i,j), source.coeff(i,j))], written in place. *)
Definition SelfCwiseBinaryOp_copyCoeff {O} `{!DenseBase O}
    (tmp : SelfCwiseBinaryOp) (i j : nat) (src : O) : M unit :=
  a ← M_read (λ m, coeff (self_matrix tmp) m i j);
  b ← M_read (λ m, coeff src m i j);
  M_write (Array_coeffRef_set (self_matrix tmp) i j (self_functor tmp a b)).

(** Modelled from the spec: [tmp = other] on an in-place update target
    (section 4.3): the shape check, then a single pass over the
    destination's index range. *)
Definition SelfCwiseBinaryOp_assign {O} `{!DenseBase O}
    (tmp : SelfCwiseBinaryOp) (rhs : O) : M unit :=
  assert_same_size (self_matrix tmp) rhs;;
  s ← M_read (shape (self_matrix tmp));
  ei_assign_impl_run (λ i j, SelfCwiseBinaryOp_copyCoeff tmp i j rhs) s.1 s.2.

(** ** [ArrayBase<Derived>] (lines 131-157 and 175-225 of [ArrayBase.h]) *)

(** [Derived& operator=(const ArrayBase& other)] *)
Definition operator_assign (this other : Array) : M Array :=
  ei_assign_selector_run (derived this) (derived other).

(** [Derived& operator+=(const Scalar& scalar)] *)
Definition operator_plus_assign_scalar (this : Array) (scalar : Scalar)
  : M Array :=
  DenseBase_operator_assign this (operator_plus_scalar (derived this) scalar).

(** [Derived& operator-=(const Scalar& scalar)] *)
Definition operator_minus_assign_scalar (this : Array) (scalar : Scalar)
  : M Array :=
  DenseBase_operator_assign this (operator_minus_scalar (derived this) scalar).

(** [Derived& operator-=(const ArrayBase<OtherDerived>& other)] *)
Definition operator_minus_assign {O} `{!ArrayBase O} (this : Array) (other : O)
  : M Array :=
  let tmp := SelfCwiseBinaryOp_new ei_scalar_difference_op (derived this) in
  SelfCwiseBinaryOp_assign tmp other;;
  mret (derived this).

(** [Derived& operator+=(const ArrayBase<OtherDerived>& other)] *)
Definition operator_plus_assign {O} `{!ArrayBase O} (this : Array) (other : O)
  : M Array :=
  let tmp := SelfCwiseBinaryOp_new ei_scalar_sum_op (derived this) in
  SelfCwiseBinaryOp_assign tmp (derived other);;
  mret (derived this).

(** [Derived& operator*=(const ArrayBase<OtherDerived>& other)] *)
Definition operator_times_assign {O} `{!ArrayBase O} (this : Array) (other : O)
  : M Array :=
  let tmp := SelfCwiseBinaryOp_new ei_scalar_product_op (derived this) in
  SelfCwiseBinaryOp_assign tmp (derived other);;
  mret (derived this).

(** [Derived& operator/=(const ArrayBase<OtherDerived>& other)] *)
Definition operator_div_assign {O} `{!ArrayBase O} (this : Array) (other : O)
  : M Array :=
  let tmp := SelfCwiseBinaryOp_new ei_scalar_quotient_op (derived this) in
  SelfCwiseBinaryOp_assign tmp (derived other);;
  mret (derived this).

(** [ArrayBase<Derived>& array() { return *this; }] *)
Definition array {D} `{!ArrayBase D} (this : D) : D := this.

(** [MatrixWrapper<Derived> matrix() { return derived(); }] *)
Definition matrix {D} `{!ArrayBase D} (this : D) : MatrixWrapper D :=
  {| mw_expression := derived this |}.

(** Modelled from the spec: [array()] on a matrix-capability expression
    (section 4.4), the conversion back. *)
Definition MatrixBase_array {D} `{!MatrixBase D} (this : D) : ArrayWrapper D :=
  {| aw_expression := derived this |}.

(** ** Predicates used by the specifications *)

(** The buffer of a container holds exactly [rows * cols] scalars. *)
Definition wf_storage (c : DenseStorage) : Prop :=
  length (m_data c) = m_rows c * m_cols c.

(** [a] denotes a live, well-formed container of shape [r] by [c]. *)
Definition allocated (a : Array) (m : Memory) (r c : nat) : Prop :=
  ∃ s, m !! m_storage a = Some s ∧ m_rows s = r ∧ m_cols s = c ∧ wf_storage s.

(** Two memories that may differ only in coefficients of [d] other than the
    one at [(i, j)]. *)
Definition agree_at (d : Array) (i j : nat) (m m' : Memory) : Prop :=
  (∀ h, h ≠ m_storage d → m !! h = m' !! h) ∧
  rows d m = rows d m' ∧ cols d m = cols d m' ∧
  coeff d m i j = coeff d m' i j.

(** The source does not read the destination at a shifted index: its
    coefficient at [(i, j)] depends on [d] only through [d]'s shape and
    [d]'s coefficient at [(i, j)]. *)
Definition same_index_only {O} `{!DenseBase O} (d : Array) (src : O) : Prop :=
  ∀ m m' i j, agree_at d i j m m' → coeff src m i j = coeff src m' i j.

(** Every coefficient of the source within an [r] by [c] range is defined. *)
Definition defined_on {O} `{!DenseBase O} (src : O) (m : Memory) (r c : nat)
  : Prop :=
  ∀ i j, i < r → j < c → is_Some (coeff src m i j).

(** The index range of an [r] by [c] destination in traversal order. *)
Definition positions (r c : nat) : list (nat * nat) :=
  j ← seq 0 c; (λ i, (i, j)) <$> seq 0 r.

(** The state of an in-place pass over [d] that started in [m0] and has
    visited the positions [visited]. *)
Definition in_place_invariant {O} `{!DenseBase O}
    (f : Scalar → Scalar → Scalar) (d : Array) (src : O) (m0 : Memory)
    (r c : nat) (visited : list (nat * nat)) (m : Memory) : Prop :=
  (∀ h, h ≠ m_storage d → m !! h = m0 !! h) ∧
  allocated d m r c ∧
  ∀ i j, i < r → j < c →
    coeff d m i j =
      if decide ((i, j) ∈ visited)
      then a ← coeff d m0 i j; b ← coeff src m0 i j; Some (f a b)
      else coeff d m0 i j.

(** The source has the destination's shape and a value at every index of
    it: the two may be combined coefficient by coefficient. *)
Definition compatible {O} `{!DenseBase O} (d : Array) (src : O) (m : Memory)
    (r c : nat) : Prop :=
  allocated d m r c ∧ rows src m = Some r ∧ cols src m = Some c ∧
  defined_on src m r c.

(** What an in-place update of [d] by [src] through [f] leaves in [m'],
    started in [m]: [d] keeps its shape, every coefficient of [d] is the
    coefficient that the node [f(d, src)] had in [m], and no other container
    is written or created. *)
Definition in_place_updated {O} `{!DenseBase O}
    (f : Scalar → Scalar → Scalar) (d : Array) (src : O) (m m' : Memory)
    (r c : nat) : Prop :=
  allocated d m' r c ∧
  (∀ h, h ≠ m_storage d → m' !! h = m !! h) ∧
  ∀ i j, i < r → j < c →
    coeff d m' i j
    = CwiseBinaryOp_coeff {| bin_functor := f; bin_lhs := d; bin_rhs := src |}
        m i j.

(** A computation that never changes the shape of [d]. *)
Definition keeps_shape {R} (d : Array) (c : M R) : Prop :=
  ∀ m m', final_memory (c m) = Some m' →
    rows d m' = rows d m ∧ cols d m' = cols d m ∧ size d m' = size d m.

(** The source reads nothing of [d]: its shape and coefficients are the
    same in any two memories that agree outside [d]. *)
Definition independent_of {O} `{!DenseBase O} (d : Array) (src : O) : Prop :=
  ∀ m m', (∀ h, h ≠ m_storage d → m !! h = m' !! h) →
    rows src m = rows src m' ∧ cols src m = cols src m' ∧
    ∀ i j, coeff src m i j = coeff src m' i j.

(** A computation that writes and creates no container but [d]. *)
Definition touches_only {R} (d : Array) (c : M R) : Prop :=
  ∀ m m', final_memory (c m) = Some m' →
    ∀ h, h ≠ m_storage d → m' !! h = m !! h.

(** A computation that never fails an assertion. *)
Definition never_asserts {R} (c : M R) : Prop :=
  ∀ m m', c m ≠ AssertFailed m'.

End Model.

Abbreviation Memory := (gmap nat DenseStorage).

Arguments M : clear implicits.
Arguments DenseBase : clear implicits.
Arguments ArrayBase : clear implicits.
Arguments MatrixBase : clear implicits.

Arguments Done {Scalar R} r m.
Arguments AssertFailed {Scalar R} m.
Arguments Undefined {Scalar R}.
Arguments un_functor {Scalar XprType} _.
Arguments un_xpr {Scalar XprType} _.
Arguments bin_functor {Scalar Lhs Rhs} _.
Arguments bin_lhs {Scalar Lhs Rhs} _.
Arguments bin_rhs {Scalar Lhs Rhs} _.
Arguments mw_expression {ExpressionType} _.
Arguments aw_expression {ExpressionType} _.
Arguments tr_matrix {MatrixType} _.

(** ** Exact integer scalars *)

#[export] Instance Z_NumTraits : NumTraits Z := {|
  ei_scalar_sum_op := Z.add;
  ei_scalar_difference_op := Z.sub;
  ei_scalar_product_op := Z.mul;
  ei_scalar_quotient_op := Z.quot
|}.

#[export] Instance Z_ExactScalar : ExactScalar Z.
Proof. split. intros a b. simpl. lia. Qed.

(** A 2 by 2 container, column by column. *)
Definition storage22 (a00 a10 a01 a11 : Z) : DenseStorage :=
  {| m_rows := 2; m_cols := 2; m_data := [a00; a10; a01; a11] |}.

(** A 3 by 3 container of zeros. *)
Definition storage33 : DenseStorage :=
  {| m_rows := 3; m_cols := 3; m_data := replicate 9 0%Z |}.

Definition arrayA : Array := {| m_storage := 0 |}.
Definition arrayB : Array := {| m_storage := 1 |}.
Definition arrayC : Array := {| m_storage := 2 |}.
Definition arrayD : Array := {| m_storage := 3 |}.

(** The scenario of the spec: A = [[1,2],[3,4]] and B = [[5,6],[7,8]]; C is
    3 by 3 and D is a 2 by 2 destination. *)
Definition memAB : gmap nat (@DenseStorage Z) :=
  <[0 := storage22 1 3 2 4]> (<[1 := storage22 5 7 6 8]>
    (<[2 := storage33]> (<[3 := storage22 0 0 0 0]> ∅))).

(** The buffer of [a] in the memory an outcome leaves. *)
Definition final_data (o : Outcome Array) (a : Array) : option (list Z) :=
  m ← final_memory o; s ← m !! m_storage a; Some (m_data s).

(** B = [[5,0],[7,8]] has a zero coefficient at (0, 1). *)
Definition memA0 : gmap nat (@DenseStorage Z) :=
  <[0 := storage22 1 3 2 4]> (<[1 := storage22 5 7 0 8]> ∅).

(** ** Floating-point scalars (IEEE binary64, the [double] of C++) *)

Definition float_NumTraits : NumTraits float := {|
  ei_scalar_sum_op := PrimFloat.add;
  ei_scalar_difference_op := PrimFloat.sub;
  ei_scalar_product_op := PrimFloat.mul;
  ei_scalar_quotient_op := PrimFloat.div
|}.



(** A 1 by 1 container. *)
Definition storage11 (a : float) : DenseStorage :=
  {| m_rows := 1; m_cols := 1; m_data := [a] |}.


(** A = [[1]] and B = [[2^60]]: the sum of their coefficients absorbs A's. *)
Definition memAbsorb : gmap nat (@DenseStorage float) :=
  <[0 := storage11 1%float]> (<[1 := storage11 0x1p+60%float]> ∅).


(** E is an empty container, 0 rows by 3 columns, beside a copy of it. *)
Definition arrayE : Array := {| m_storage := 4 |}.
Definition arrayF : Array := {| m_storage := 5 |}.
Definition memE : gmap nat (@DenseStorage Z) :=
  <[4 := {| m_rows := 0; m_cols := 3; m_data := [] |}]>
    (<[5 := {| m_rows := 0; m_cols := 3; m_data := [] |}]> ∅).

Section Proofs.
Context {Scalar : Type} `{!NumTraits Scalar}.
Implicit Types (m : gmap nat (@DenseStorage Scalar)) (d : Array).

(** ** The monad *)

Lemma M_bind_unfold {R S} (c : M Scalar R) (k : R → M Scalar S) m :
  (c ≫= k) m = match c m with
               | Done r m' => k r m'
               | AssertFailed m' => AssertFailed m'
               | Undefined => Undefined
               end.
Proof. reflexivity. Qed.

Lemma M_read_bind {R S} (f : Memory → option R) (k : R → M Scalar S) m :
  (M_read f ≫= k) m = match f m with
                      | Some r => k r m
                      | None => Undefined
                      end.
Proof. rewrite M_bind_unfold. unfold M_read. by destruct (f m). Qed.

Lemma bind_AssertFailed {R S} (c : M Scalar R) (k : R → M Scalar S) m m' :
  c m = AssertFailed m' → (c ≫= k) m = AssertFailed m'.
Proof. intros E. unfold mbind, M_mbind, M_bind. by rewrite E. Qed.

Lemma bind_final_memory {R S} (c : M Scalar R) (k : R → M Scalar S) m m2 :
  final_memory ((c ≫= k) m) = Some m2 →
  (∃ r m1, c m = Done r m1 ∧ final_memory (k r m1) = Some m2) ∨
  c m = AssertFailed m2.
Proof.
  unfold mbind, M_mbind, M_bind.
  destruct (c m) as [r m1| m1 |] eqn:E; simpl; intros Hf.
  - left. eauto.
  - right. congruence.
  - discriminate.
Qed.

Lemma for_each_app {X} (l1 l2 : list X) (body : X → M Scalar unit) m :
  for_each (l1 ++ l2) body m = (for_each l1 body ;; for_each l2 body) m.
Proof.
  revert m. induction l1 as [|x l1 IH]; intros m; simpl; [done|].
  unfold mbind, M_mbind, M_bind in *.
  destruct (body x m) as [[] m1| |]; [apply IH|done..].
Qed.

Lemma for_each_fmap {X Y} (g : X → Y) (l : list X)
    (body : Y → M Scalar unit) m :
  for_each (g <$> l) body m = for_each l (λ x, body (g x)) m.
Proof.
  revert m. induction l as [|x l IH]; intros m; simpl; [done|].
  unfold mbind, M_mbind, M_bind.
  destruct (body (g x) m) as [[] m1| |]; [apply IH|done..].
Qed.

Lemma ei_assign_impl_run_positions
    (copyCoeff : nat → nat → M Scalar unit) r c m :
  ei_assign_impl_run copyCoeff r c m
  = for_each (positions r c) (λ p, copyCoeff p.1 p.2) m.
Proof.
  unfold ei_assign_impl_run, positions.
  generalize (seq 0 c) as outers. intros outers. revert m.
  induction outers as [|j outers IH]; intros m; [done|].
  change ((j :: outers) ≫= (λ j0, (λ i, (i, j0)) <$> seq 0 r))
    with (((λ i, (i, j)) <$> seq 0 r) ++
          (outers ≫= (λ j0, (λ i, (i, j0)) <$> seq 0 r))).
  rewrite for_each_app. simpl.
  rewrite !M_bind_unfold, for_each_fmap. simpl.
  destruct (for_each (seq 0 r) _ m) as [[] m1| |]; [apply IH|done..].
Qed.

Lemma elem_of_positions r c i j :
  (i, j) ∈ positions r c ↔ i < r ∧ j < c.
Proof.
  unfold positions. rewrite list_elem_of_bind. split.
  - intros (j' & Hi & Hj). apply list_elem_of_fmap in Hi as (i' & Heq & Hi).
    inversion Heq; subst. apply elem_of_seq in Hi, Hj. lia.
  - intros [Hi Hj]. exists j. split.
    + apply list_elem_of_fmap. exists i. split; [done|]. apply elem_of_seq. lia.
    + apply elem_of_seq. lia.
Qed.

Lemma NoDup_positions r c : NoDup (positions r c).
Proof.
  unfold positions. apply NoDup_bind.
  - intros j1 j2 [i j] _ _ H1 H2.
    apply list_elem_of_fmap in H1 as (? & E1 & _).
    apply list_elem_of_fmap in H2 as (? & E2 & _). congruence.
  - intros j _. apply NoDup_fmap_2; [|apply NoDup_seq].
    intros i1 i2 E. congruence.
  - apply NoDup_seq.
Qed.

(** ** Containers *)

Lemma linear_index_lt r c i j : i < r → j < c → i + j * r < r * c.
Proof. intros Hi Hj. nia. Qed.

Lemma linear_index_inj r i j i' j' :
  i < r → i' < r → i + j * r = i' + j' * r → i = i' ∧ j = j'.
Proof.
  intros Hi Hi' E.
  destruct (Nat.lt_trichotomy j j') as [Hlt|[->|Hgt]]; [|lia|].
  - assert (j * r + r ≤ j' * r) by nia. lia.
  - assert (j' * r + r ≤ j * r) by nia. lia.
Qed.

Lemma allocated_shape d m r c :
  allocated d m r c → rows d m = Some r ∧ cols d m = Some c.
Proof.
  intros (s & Hs & <- & <- & _). simpl. unfold Array_rows, Array_cols.
  by rewrite Hs.
Qed.

Lemma allocated_size d m r c : allocated d m r c → size d m = Some (r * c).
Proof.
  intros Ha. destruct (allocated_shape _ _ _ _ Ha) as [Hr Hc].
  unfold size. by rewrite Hr, Hc.
Qed.

Lemma allocated_coeff d m r c i j :
  allocated d m r c → i < r → j < c → is_Some (coeff d m i j).
Proof.
  intros (s & Hs & <- & <- & Hwf) Hi Hj. simpl. unfold Array_coeff.
  rewrite Hs. simpl. rewrite decide_True by done.
  apply lookup_lt_is_Some. rewrite Hwf. by apply linear_index_lt.
Qed.

(** Writing one coefficient of a live container: the write succeeds, the
    shape stays, no other container and no other coefficient changes. *)
Lemma coeffRef_set_allocated d m r c i j v :
  allocated d m r c → i < r → j < c →
  ∃ m', Array_coeffRef_set d i j v m = Some m' ∧
        allocated d m' r c ∧
        (∀ h, h ≠ m_storage d → m' !! h = m !! h) ∧
        coeff d m' i j = Some v ∧
        (∀ i' j', i' < r → j' < c → (i', j') ≠ (i, j) →
                  coeff d m' i' j' = coeff d m i' j').
Proof.
  intros (s & Hs & <- & <- & Hwf) Hi Hj.
  pose proof (linear_index_lt _ _ _ _ Hi Hj) as Hlt.
  unfold Array_coeffRef_set. rewrite Hs. simpl.
  rewrite decide_True by (rewrite Hwf; done).
  eexists. split; [done|]. repeat split.
  - eexists. split; [apply lookup_insert_eq|]. simpl. repeat split.
    unfold wf_storage. simpl. by rewrite length_insert.
  - intros h Hh. by apply lookup_insert_ne.
  - simpl. unfold Array_coeff. rewrite lookup_insert_eq. simpl.
    rewrite decide_True by done. apply list_lookup_insert_eq. by rewrite Hwf.
  - intros i' j' Hi' Hj' Hne. simpl. unfold Array_coeff.
    rewrite lookup_insert_eq, Hs. simpl.
    rewrite !decide_True by done. apply list_lookup_insert_ne.
    intros E. apply linear_index_inj in E as [-> ->]; done.
Qed.

Lemma coeffRef_set_shape d i j v m m' :
  Array_coeffRef_set d i j v m = Some m' →
  rows d m' = rows d m ∧ cols d m' = cols d m.
Proof.
  unfold Array_coeffRef_set. simpl. unfold Array_rows, Array_cols.
  destruct (m !! m_storage d) as [s|] eqn:Hs; simpl; [|done].
  case_decide; [|done]. intros [= <-]. by rewrite lookup_insert_eq.
Qed.

(** ** One pass of an in-place update *)

Section InPlace.
Context {O : Type} `{!DenseBase Scalar O}.
Variables (f : Scalar → Scalar → Scalar) (d : Array) (src : O).
Variables (step : nat → nat → M Scalar unit).
Variables (m0 : gmap nat (@DenseStorage Scalar)) (r c : nat).
Hypothesis step_spec : ∀ m i j a b,
  coeff d m i j = Some a → coeff src m i j = Some b →
  step i j m = M_write (Array_coeffRef_set d i j (f a b)) m.
Hypothesis src_same_index : same_index_only d src.
Hypothesis src_defined : defined_on src m0 r c.
Hypothesis dst_allocated : allocated d m0 r c.

Lemma in_place_invariant_init : in_place_invariant f d src m0 r c [] m0.
Proof.
  split; [done|]. split; [done|]. intros i j _ _.
  rewrite decide_False; [done|]. apply not_elem_of_nil.
Qed.

Lemma in_place_step visited m i j :
  in_place_invariant f d src m0 r c visited m →
  i < r → j < c → (i, j) ∉ visited →
  ∃ m', step i j m = Done tt m' ∧
        in_place_invariant f d src m0 r c ((i, j) :: visited) m'.
Proof.
  intros (Hframe & Halloc & Hcoeff) Hi Hj Hnew.
  pose proof (Hcoeff i j Hi Hj) as Hd. rewrite decide_False in Hd by done.
  assert (coeff src m i j = coeff src m0 i j) as Hs.
  { apply src_same_index. split; [done|].
    destruct (allocated_shape _ _ _ _ Halloc) as [-> ->].
    destruct (allocated_shape _ _ _ _ dst_allocated) as [-> ->]. done. }
  destruct (allocated_coeff _ _ _ _ i j dst_allocated Hi Hj) as [a Ha].
  destruct (src_defined i j Hi Hj) as [b Hb].
  rewrite Ha in Hd. rewrite Hb in Hs.
  destruct (coeffRef_set_allocated d m r c i j (f a b) Halloc Hi Hj)
    as (m' & Hw & Halloc' & Hframe' & Hsame & Hother).
  exists m'. split.
  { rewrite (step_spec m i j a b Hd Hs). unfold M_write. by rewrite Hw. }
  split; [|split; [done|]].
  - intros h Hh. rewrite Hframe' by done. by apply Hframe.
  - intros i' j' Hi' Hj'. destruct (decide ((i', j') = (i, j))) as [E|Hne].
    + inversion E; subst. rewrite decide_True by apply list_elem_of_here.
      rewrite Hsame, Ha, Hb. done.
    + rewrite Hother, Hcoeff by done.
      destruct (decide ((i', j') ∈ visited)) as [Hin|Hnin].
      * rewrite decide_True; [done|]. by apply list_elem_of_further.
      * rewrite decide_False; [done|].
        intros Hin. apply elem_of_cons in Hin as [?|?]; done.
Qed.

Lemma in_place_for_each ps : ∀ visited m,
  NoDup ps →
  (∀ p, p ∈ ps → (p ∉ visited) ∧ fst p < r ∧ snd p < c) →
  in_place_invariant f d src m0 r c visited m →
  ∃ m', for_each ps (λ p, step p.1 p.2) m = Done tt m' ∧
        in_place_invariant f d src m0 r c (reverse ps ++ visited) m'.
Proof.
  induction ps as [|[i j] ps IH]; intros visited m Hnd Hps Hinv.
  - exists m. split; done.
  - apply NoDup_cons in Hnd as [Hnotin Hnd].
    destruct (Hps (i, j)) as (Hnew & Hi & Hj); [apply list_elem_of_here|].
    simpl in Hi, Hj.
    destruct (in_place_step visited m i j Hinv Hi Hj Hnew) as (m1 & E1 & Hinv1).
    destruct (IH ((i, j) :: visited) m1 Hnd) as (m' & E & Hinv'); [|done|].
    { intros p Hp. destruct (Hps p) as (? & ? & ?);
        [by apply list_elem_of_further|].
      split; [|done]. intros Hin.
      apply elem_of_cons in Hin as [->|?]; done. }
    exists m'. split.
    + simpl. rewrite M_bind_unfold. simpl. by rewrite E1.
    + by rewrite reverse_cons, <- app_assoc.
Qed.

(** The whole pass: it completes, every coefficient of the destination is
    combined with the source's coefficient at the same index, the shape
    stays and no other container is touched or created. *)
Lemma in_place_pass :
  ∃ m', ei_assign_impl_run step r c m0 = Done tt m' ∧
        allocated d m' r c ∧
        (∀ h, h ≠ m_storage d → m' !! h = m0 !! h) ∧
        ∀ i j, i < r → j < c →
          coeff d m' i j
          = (a ← coeff d m0 i j; b ← coeff src m0 i j; Some (f a b)).
Proof.
  destruct (in_place_for_each (positions r c) [] m0) as (m' & E & Hinv).
  - apply NoDup_positions.
  - intros [i j] Hp. apply elem_of_positions in Hp.
    split; [apply not_elem_of_nil|done].
  - apply in_place_invariant_init.
  - exists m'. rewrite ei_assign_impl_run_positions.
    destruct Hinv as (Hframe & Halloc & Hcoeff).
    repeat split; [done..|].
    intros i j Hi Hj. rewrite Hcoeff by done.
    rewrite decide_True; [done|].
    rewrite app_nil_r, elem_of_reverse. by apply elem_of_positions.
Qed.

End InPlace.

(** ** Shape checks *)

Lemma assert_same_size_ok {L R} `{!DenseBase Scalar L, !DenseBase Scalar R}
    (l : L) (r : R) m s :
  shape l m = Some s → shape r m = Some s →
  assert_same_size l r m = Done tt m.
Proof.
  intros Hl Hr. unfold assert_same_size.
  rewrite M_read_bind, Hl, M_read_bind, Hr. unfold ei_assert.
  by rewrite bool_decide_eq_true_2.
Qed.

Lemma assert_same_size_fail {L R} `{!DenseBase Scalar L, !DenseBase Scalar R}
    (l : L) (r : R) m sl sr :
  shape l m = Some sl → shape r m = Some sr → sl ≠ sr →
  assert_same_size l r m = AssertFailed m.
Proof.
  intros Hl Hr Hne. unfold assert_same_size.
  rewrite M_read_bind, Hl, M_read_bind, Hr. unfold ei_assert.
  rewrite bool_decide_eq_false_2; [done|]. congruence.
Qed.

Lemma assert_same_size_final {L R} `{!DenseBase Scalar L, !DenseBase Scalar R}
    (l : L) (r : R) m :
  match assert_same_size l r m with
  | Done _ m' => m' = m ∧ shape l m = shape r m
  | AssertFailed m' => m' = m
  | Undefined => True
  end.
Proof.
  unfold assert_same_size. rewrite M_read_bind.
  destruct (shape l m) as [sl|]; [|done]. rewrite M_read_bind.
  destruct (shape r m) as [sr|]; [|done].
  unfold ei_assert. case_bool_decide; [|done]. split; congruence.
Qed.

Lemma shape_Some {D} `{!DenseBase Scalar D} (x : D) m r c :
  rows x m = Some r → cols x m = Some c → shape x m = Some (r, c).
Proof. intros Hr Hc. unfold shape. by rewrite Hr, Hc. Qed.

Lemma allocated_shape_pair d m r c :
  allocated d m r c → shape d m = Some (r, c).
Proof. intros Ha. apply allocated_shape in Ha as [? ?]. by apply shape_Some. Qed.

Lemma compatible_shapes {O} `{!DenseBase Scalar O} d (src : O) m r c :
  compatible d src m r c →
  shape d m = Some (r, c) ∧ shape src m = Some (r, c).
Proof.
  intros (Ha & Hr & Hc & _). split;
    [by apply allocated_shape_pair|by apply shape_Some].
Qed.

(** ** In-place update and materialization, as a whole *)

Lemma SelfCwiseBinaryOp_assign_spec {O} `{!DenseBase Scalar O}
    f d (src : O) m r c :
  compatible d src m r c → same_index_only d src →
  ∃ m', SelfCwiseBinaryOp_assign (SelfCwiseBinaryOp_new f d) src m = Done tt m'
        ∧ in_place_updated f d src m m' r c.
Proof.
  intros Hc Hs. destruct (compatible_shapes _ _ _ _ _ Hc) as [Hd Hsrc].
  destruct Hc as (Ha & _ & _ & Hdef).
  destruct (in_place_pass f d src
              (λ i j, SelfCwiseBinaryOp_copyCoeff (SelfCwiseBinaryOp_new f d)
                        i j src) m r c) as (m' & E & Hpost); try done.
  { intros m1 i j a b Ea Eb. unfold SelfCwiseBinaryOp_copyCoeff.
    simpl self_matrix. by rewrite M_read_bind, Ea, M_read_bind, Eb. }
  exists m'. split; [|done].
  unfold SelfCwiseBinaryOp_assign. simpl self_matrix. rewrite M_bind_unfold.
  rewrite (assert_same_size_ok _ _ _ _ Hd Hsrc).
  by rewrite M_read_bind, Hd.
Qed.

Lemma Array_lazyAssign_spec {O} `{!DenseBase Scalar O} d (src : O) m r c :
  compatible d src m r c → same_index_only d src →
  ∃ m', Array_lazyAssign d src m = Done d m' ∧
        allocated d m' r c ∧
        (∀ h, h ≠ m_storage d → m' !! h = m !! h) ∧
        ∀ i j, i < r → j < c → coeff d m' i j = coeff src m i j.
Proof.
  intros Hc Hs. destruct (compatible_shapes _ _ _ _ _ Hc) as [Hd Hsrc].
  destruct Hc as (Ha & _ & _ & Hdef).
  destruct (in_place_pass (λ _ b, b) d src
              (λ i j, Array_copyCoeff d i j src) m r c)
    as (m' & E & Ha' & Hframe & Hcoeff); try done.
  { intros m1 i j a b Ea Eb. unfold Array_copyCoeff.
    by rewrite M_read_bind, Eb. }
  exists m'. split; [|repeat split; try done].
  - unfold Array_lazyAssign. rewrite M_bind_unfold.
    rewrite (assert_same_size_ok _ _ _ _ Hd Hsrc).
    rewrite M_read_bind, Hd. simpl.
    rewrite M_bind_unfold. by rewrite E.
  - intros i j Hi Hj. rewrite Hcoeff by done.
    destruct (allocated_coeff _ _ _ _ i j Ha Hi Hj) as [a ->].
    destruct (Hdef i j Hi Hj) as [b ->]. done.
Qed.

(** ** Which sources read the destination at the same index only *)

Lemma Array_same_index_only d (o : Array) :
  same_index_only (Scalar:=Scalar) d o.
Proof.
  intros m m' i j (Hframe & _ & _ & Hcoeff).
  destruct (decide (m_storage o = m_storage d)) as [E|Hne].
  - destruct o, d. simpl in E. by subst.
  - simpl. unfold Array_coeff. by rewrite (Hframe _ Hne).
Qed.

Lemma CwiseUnaryOp_same_index_only {X} `{!ArrayBase Scalar X} d
    (e : CwiseUnaryOp X) :
  same_index_only d (un_xpr e) → same_index_only d e.
Proof.
  intros Hx m m' i j Hag. simpl. unfold CwiseUnaryOp_coeff.
  by rewrite (Hx m m' i j Hag).
Qed.

Lemma CwiseBinaryOp_same_index_only {L R}
    `{!ArrayBase Scalar L, !ArrayBase Scalar R} d (e : CwiseBinaryOp L R) :
  same_index_only d (bin_lhs e) → same_index_only d (bin_rhs e) →
  same_index_only d e.
Proof.
  intros Hl Hr m m' i j Hag. simpl. unfold CwiseBinaryOp_coeff.
  by rewrite (Hl m m' i j Hag), (Hr m m' i j Hag).
Qed.

Lemma Array_compatible d (o : Array) m r c :
  allocated d m r c → allocated o m r c → compatible d o m r c.
Proof.
  intros Hd Ho. destruct (allocated_shape _ _ _ _ Ho) as [Hr Hc].
  repeat split; try done. intros i j Hi Hj. by eapply allocated_coeff.
Qed.

Lemma CwiseUnaryOp_defined_on {X} `{!ArrayBase Scalar X}
    (e : CwiseUnaryOp X) m r c :
  defined_on (un_xpr e) m r c → defined_on e m r c.
Proof.
  intros Hx i j Hi Hj. destruct (Hx i j Hi Hj) as [a Ha].
  simpl. unfold CwiseUnaryOp_coeff. by rewrite Ha.
Qed.

Lemma CwiseBinaryOp_defined_on {L R}
    `{!ArrayBase Scalar L, !ArrayBase Scalar R} (e : CwiseBinaryOp L R) m r c :
  defined_on (bin_lhs e) m r c → defined_on (bin_rhs e) m r c →
  defined_on e m r c.
Proof.
  intros Hl Hr i j Hi Hj.
  destruct (Hl i j Hi Hj) as [a Ha], (Hr i j Hi Hj) as [b Hb].
  simpl. unfold CwiseBinaryOp_coeff. by rewrite Ha, Hb.
Qed.

(** ** Shape preservation *)

Lemma keeps_shape_ret {R} d (x : R) : keeps_shape (Scalar:=Scalar) d (mret x).
Proof. intros m m' [= <-]. done. Qed.

Lemma keeps_shape_bind {R S} d (c : M Scalar R) (k : R → M Scalar S) :
  keeps_shape d c → (∀ x, keeps_shape d (k x)) → keeps_shape d (c ≫= k).
Proof.
  intros Hc Hk m m2 Hf.
  apply bind_final_memory in Hf as [(x & m1 & E & Hf)|E].
  - destruct (Hc m m1) as (Hr1 & Hc1 & Hs1); [by rewrite E|].
    destruct (Hk x m1 m2 Hf) as (Hr2 & Hc2 & Hs2).
    repeat split; congruence.
  - apply Hc. by rewrite E.
Qed.

Lemma keeps_shape_assert d b : keeps_shape (Scalar:=Scalar) d (ei_assert b).
Proof. intros m m'. unfold ei_assert. destruct b; intros [= <-]; done. Qed.

Lemma keeps_shape_read {R} d (f : Memory → option R) :
  keeps_shape (Scalar:=Scalar) d (M_read f).
Proof.
  intros m m'. unfold M_read. destruct (f m); [|done]. intros [= <-]. done.
Qed.

Lemma keeps_shape_write d i j (v : Scalar) :
  keeps_shape d (M_write (Array_coeffRef_set d i j v)).
Proof.
  intros m m'. unfold M_write.
  destruct (Array_coeffRef_set d i j v m) as [m1|] eqn:E; [|done].
  intros [= <-]. apply coeffRef_set_shape in E as [Hr Hc].
  unfold size. by rewrite Hr, Hc.
Qed.

Lemma keeps_shape_for_each {X} d (l : list X) (body : X → M Scalar unit) :
  (∀ x, keeps_shape (Scalar:=Scalar) d (body x)) →
  keeps_shape d (for_each l body).
Proof.
  intros Hb. induction l as [|x l IH]; simpl.
  - apply keeps_shape_ret.
  - apply keeps_shape_bind; [apply Hb|done].
Qed.

Lemma keeps_shape_assert_same_size {L R}
    `{!DenseBase Scalar L, !DenseBase Scalar R} d (l : L) (r : R) :
  keeps_shape d (assert_same_size l r).
Proof.
  unfold assert_same_size.
  apply keeps_shape_bind; [apply keeps_shape_read|intros sl].
  apply keeps_shape_bind; [apply keeps_shape_read|intros sr].
  apply keeps_shape_assert.
Qed.

Lemma keeps_shape_SelfCwiseBinaryOp_assign {O} `{!DenseBase Scalar O}
    f d (src : O) :
  keeps_shape d (SelfCwiseBinaryOp_assign (SelfCwiseBinaryOp_new f d) src).
Proof.
  unfold SelfCwiseBinaryOp_assign.
  apply keeps_shape_bind; [apply keeps_shape_assert_same_size|intros _].
  apply keeps_shape_bind; [apply keeps_shape_read|intros s].
  unfold ei_assign_impl_run.
  apply keeps_shape_for_each. intros outer.
  apply keeps_shape_for_each. intros inner.
  unfold SelfCwiseBinaryOp_copyCoeff.
  apply keeps_shape_bind; [apply keeps_shape_read|intros a].
  apply keeps_shape_bind; [apply keeps_shape_read|intros b].
  apply keeps_shape_write.
Qed.

(** ** Returned references *)

Lemma returned_bind {R S} (c : M Scalar R) (k : R → M Scalar S) m y :
  returned ((c ≫= k) m) = Some y →
  ∃ x m1, c m = Done x m1 ∧ returned (k x m1) = Some y.
Proof.
  rewrite M_bind_unfold. destruct (c m) as [x m1| |]; [eauto|done..].
Qed.

Lemma returned_then_ret {R S} (c : M Scalar R) (x : S) m y :
  returned ((c ;; mret x) m) = Some y → y = x.
Proof.
  intros Hr. apply returned_bind in Hr as (? & m1 & _ & Hr).
  simpl in Hr. congruence.
Qed.

Lemma returned_lazyAssign {O} `{!DenseBase Scalar O} d (src : O) m y :
  returned (Array_lazyAssign d src m) = Some y → y = d.
Proof.
  unfold Array_lazyAssign. intros Hr.
  apply returned_bind in Hr as (? & m1 & _ & Hr).
  apply returned_bind in Hr as (? & m2 & _ & Hr).
  by apply returned_then_ret in Hr.
Qed.

(** ** The compound assignments *)

Lemma compound_assign_spec {O} `{!DenseBase Scalar O} f d (src : O) m r c :
  compatible d src m r c → same_index_only d src →
  ∃ m', (SelfCwiseBinaryOp_assign (SelfCwiseBinaryOp_new f d) src ;; mret d) m
        = Done d m' ∧ in_place_updated f d src m m' r c.
Proof.
  intros Hc Hs.
  destruct (SelfCwiseBinaryOp_assign_spec f d src m r c Hc Hs) as (m' & E & Hp).
  exists m'. split; [|done]. rewrite M_bind_unfold. by rewrite E.
Qed.

(** ** Specifications *)

(** C1. For compatible [d] and [src], where [src] does not read [d] at a
    shifted index, each of [d += src], [d -= src], [d *= src] and [d /= src]
    completes and leaves every coefficient of [d] equal to the combining
    function applied to [d]'s old coefficient and [src]'s coefficient.  The
    update runs through a [SelfCwiseBinaryOp] bound to [d]: [d] keeps its
    shape, and no container other than [d] is written or created. *)
Theorem compound_assign_in_place {O} `{!ArrayBase Scalar O} d (src : O) m r c :
  compatible d src m r c → same_index_only d src →
  (∃ m', operator_plus_assign d src m = Done d m' ∧
         in_place_updated ei_scalar_sum_op d src m m' r c) ∧
  (∃ m', operator_minus_assign d src m = Done d m' ∧
         in_place_updated ei_scalar_difference_op d src m m' r c) ∧
  (∃ m', operator_times_assign d src m = Done d m' ∧
         in_place_updated ei_scalar_product_op d src m m' r c) ∧
  (∃ m', operator_div_assign d src m = Done d m' ∧
         in_place_updated ei_scalar_quotient_op d src m m' r c).
Proof.
  intros Hc Hs. repeat split; by apply compound_assign_spec.
Qed.

(** C5. [d *= d] is well defined: it completes and leaves every coefficient
    of [d] equal to the product of its original value with itself. *)
Theorem self_times_assign_squares d m r c :
  allocated d m r c →
  ∃ m', operator_times_assign d d m = Done d m' ∧
        allocated d m' r c ∧
        ∀ i j, i < r → j < c →
          ∃ a, coeff d m i j = Some a ∧
               coeff d m' i j = Some (ei_scalar_product_op a a).
Proof.
  intros Ha.
  destruct (compound_assign_spec ei_scalar_product_op d d m r c)
    as (m' & E & Ha' & _ & Hcoeff).
  { by apply Array_compatible. }
  { apply Array_same_index_only. }
  exists m'. repeat split; try done.
  intros i j Hi Hj. destruct (allocated_coeff _ _ _ _ i j Ha Hi Hj) as [a Ea].
  exists a. split; [done|]. rewrite Hcoeff by done.
  unfold CwiseBinaryOp_coeff. simpl bin_lhs. simpl bin_rhs. by rewrite Ea.
Qed.

(** C9. [d /= src] applies the quotient functor to every coefficient pair
    whatever the divisor: with divisor [z] at an index of [d]'s shape, zero
    included, the update completes and the coefficient there is the raw
    quotient of the old coefficient by [z]. *)
Theorem div_assign_unguarded {O} `{!ArrayBase Scalar O} d (src : O) m r c
    i j a z :
  compatible d src m r c → same_index_only d src →
  i < r → j < c →
  coeff d m i j = Some a → coeff src m i j = Some z →
  ∃ m', operator_div_assign d src m = Done d m' ∧
        coeff d m' i j = Some (ei_scalar_quotient_op a z).
Proof.
  intros Hc Hs Hi Hj Ea Ez.
  destruct (compound_assign_spec ei_scalar_quotient_op d src m r c Hc Hs)
    as (m' & E & _ & _ & Hcoeff).
  exists m'. split; [done|]. rewrite Hcoeff by done.
  unfold CwiseBinaryOp_coeff. simpl bin_lhs. simpl bin_rhs.
  by rewrite Ea, Ez.
Qed.

(** C8. Each in-place compound assignment with an expression right-hand
    side leaves the destination's row count, column count and size as they
    were, in whatever memory it stops. *)
Theorem compound_assign_keeps_shape {O} `{!ArrayBase Scalar O} d (src : O) :
  keeps_shape d (operator_plus_assign d src) ∧
  keeps_shape d (operator_minus_assign d src) ∧
  keeps_shape d (operator_times_assign d src) ∧
  keeps_shape d (operator_div_assign d src).
Proof.
  repeat apply conj;
    (apply keeps_shape_bind;
     [apply keeps_shape_SelfCwiseBinaryOp_assign
     |intros _; apply keeps_shape_ret]).
Qed.

(** C10. Every compound assignment, with a scalar or an expression on the
    right, and the explicit [operator=] return the destination itself:
    whatever they return is [d], and under their preconditions they do
    return, with [d] updated in the memory they leave. *)
Theorem assignments_return_this {O} `{!ArrayBase Scalar O} d (src : O)
    (other : Array) (scalar : Scalar) m r c :
  (∀ res, returned (operator_assign d other m) = Some res → res = d) ∧
  (∀ res, returned (operator_plus_assign_scalar d scalar m) = Some res →
          res = d) ∧
  (∀ res, returned (operator_minus_assign_scalar d scalar m) = Some res →
          res = d) ∧
  (∀ res, returned (operator_plus_assign d src m) = Some res → res = d) ∧
  (∀ res, returned (operator_minus_assign d src m) = Some res → res = d) ∧
  (∀ res, returned (operator_times_assign d src m) = Some res → res = d) ∧
  (∀ res, returned (operator_div_assign d src m) = Some res → res = d) ∧
  (allocated d m r c →
     (allocated other m r c → returned (operator_assign d other m) = Some d) ∧
     returned (operator_plus_assign_scalar d scalar m) = Some d ∧
     returned (operator_minus_assign_scalar d scalar m) = Some d) ∧
  (compatible d src m r c → same_index_only d src →
     returned (operator_plus_assign d src m) = Some d ∧
     returned (operator_minus_assign d src m) = Some d ∧
     returned (operator_times_assign d src m) = Some d ∧
     returned (operator_div_assign d src m) = Some d).
Proof.
  repeat apply conj.
  - intros res. apply returned_lazyAssign.
  - intros res. apply returned_lazyAssign.
  - intros res. apply returned_lazyAssign.
  - intros res. apply returned_then_ret.
  - intros res. apply returned_then_ret.
  - intros res. apply returned_then_ret.
  - intros res. apply returned_then_ret.
  - intros Ha. repeat apply conj.
    + intros Ho.
      destruct (Array_lazyAssign_spec d other m r c) as (m' & E & _).
      { by apply Array_compatible. }
      { apply Array_same_index_only. }
      unfold operator_assign, ei_assign_selector_run, derived. by rewrite E.
    + destruct (Array_lazyAssign_spec d
                  (operator_plus_scalar d scalar) m r c) as (m' & E & _).
      { destruct (Array_compatible d d m r c Ha Ha) as (? & ? & ? & ?).
        repeat split; try done. by apply CwiseUnaryOp_defined_on. }
      { apply CwiseUnaryOp_same_index_only, Array_same_index_only. }
      unfold operator_plus_assign_scalar, DenseBase_operator_assign,
        ei_assign_selector_run, derived. by rewrite E.
    + destruct (Array_lazyAssign_spec d
                  (operator_minus_scalar d scalar) m r c) as (m' & E & _).
      { destruct (Array_compatible d d m r c Ha Ha) as (? & ? & ? & ?).
        repeat split; try done. by apply CwiseUnaryOp_defined_on. }
      { apply CwiseUnaryOp_same_index_only, Array_same_index_only. }
      unfold operator_minus_assign_scalar, DenseBase_operator_assign,
        ei_assign_selector_run, derived. by rewrite E.
  - intros Hc Hs. repeat apply conj.
    + destruct (compound_assign_spec ei_scalar_sum_op d src m r c Hc Hs)
        as (m' & E & _).
      unfold operator_plus_assign, derived. cbv zeta. by rewrite E.
    + destruct (compound_assign_spec ei_scalar_difference_op d src m r c Hc Hs)
        as (m' & E & _).
      unfold operator_minus_assign, derived. cbv zeta. by rewrite E.
    + destruct (compound_assign_spec ei_scalar_product_op d src m r c Hc Hs)
        as (m' & E & _).
      unfold operator_times_assign, derived. cbv zeta. by rewrite E.
    + destruct (compound_assign_spec ei_scalar_quotient_op d src m r c Hc Hs)
        as (m' & E & _).
      unfold operator_div_assign, derived. cbv zeta. by rewrite E.
Qed.

(** C2. For every array expression [A], [array()] is the identity,
    [matrix()] wraps [A] itself (no copy), and the round trip
    [A.array().matrix()], as well as its conversion back to an array, has
    the rows, columns and coefficients of [A] in every memory. *)
Theorem array_matrix_round_trip {D} `{!ArrayBase Scalar D} (A : D) m i j :
  array A = A ∧
  mw_expression (matrix (array A)) = A ∧
  rows (matrix (array A)) m = rows A m ∧
  cols (matrix (array A)) m = cols A m ∧
  coeff (matrix (array A)) m i j = coeff A m i j ∧
  rows (MatrixBase_array (matrix (array A))) m = rows A m ∧
  cols (MatrixBase_array (matrix (array A))) m = cols A m ∧
  coeff (MatrixBase_array (matrix (array A))) m i j = coeff A m i j.
Proof. repeat apply conj; reflexivity. Qed.

(** C3. When the shapes of the operands differ, every binary operator
    between them, an assignment of their sum, and every in-place compound
    assignment with the mismatched source fail the fatal assertion, and the
    memory at the failure is the initial memory: nothing was written. *)
Theorem shape_mismatch_aborts {L R} `{!ArrayBase Scalar L, !ArrayBase Scalar R}
    (l : L) (r : R) (d dst : Array) m sl sr sd :
  shape l m = Some sl → shape r m = Some sr → sl ≠ sr →
  shape d m = Some sd → sd ≠ sr →
  operator_plus l r m = AssertFailed m ∧
  operator_minus l r m = AssertFailed m ∧
  operator_times l r m = AssertFailed m ∧
  operator_div l r m = AssertFailed m ∧
  (e ← operator_plus l r; DenseBase_operator_assign dst e) m = AssertFailed m ∧
  operator_plus_assign d r m = AssertFailed m ∧
  operator_minus_assign d r m = AssertFailed m ∧
  operator_times_assign d r m = AssertFailed m ∧
  operator_div_assign d r m = AssertFailed m.
Proof.
  intros Hl Hr Hne Hd Hned.
  pose proof (assert_same_size_fail l r m sl sr Hl Hr Hne) as Hbin.
  pose proof (assert_same_size_fail d r m sd sr Hd Hr Hned) as Hself.
  assert (∀ f, CwiseBinaryOp_new f l r m = AssertFailed m) as Hnew.
  { intros f. unfold CwiseBinaryOp_new. by apply bind_AssertFailed. }
  assert (∀ f, (SelfCwiseBinaryOp_assign (SelfCwiseBinaryOp_new f d) r ;;
                mret d) m = AssertFailed m) as Hassign.
  { intros f. apply bind_AssertFailed. unfold SelfCwiseBinaryOp_assign.
    by apply bind_AssertFailed. }
  repeat apply conj; try apply Hnew; try apply Hassign.
  apply bind_AssertFailed, Hnew.
Qed.


(** C6. [x + scalar] has the shape of [x] and, at every position, the
    coefficient of [x] plus the scalar; [d += scalar] and [d -= scalar] are
    the assignments [d = d + scalar] and [d = d - scalar]; and after
    [d += scalar] every coefficient of [d] is its old value plus the
    scalar. *)
Theorem scalar_plus_broadcast {D} `{!ArrayBase Scalar D} (x : D) d scalar
    m r c :
  (∀ i j, coeff (operator_plus_scalar x scalar) m i j
          = (λ a, ei_scalar_sum_op a scalar) <$> coeff x m i j) ∧
  rows (operator_plus_scalar x scalar) m = rows x m ∧
  cols (operator_plus_scalar x scalar) m = cols x m ∧
  operator_plus_assign_scalar d scalar
  = DenseBase_operator_assign d (operator_plus_scalar d scalar) ∧
  operator_minus_assign_scalar d scalar
  = DenseBase_operator_assign d (operator_minus_scalar d scalar) ∧
  (allocated d m r c →
   ∃ m', operator_plus_assign_scalar d scalar m = Done d m' ∧
         allocated d m' r c ∧
         ∀ i j, i < r → j < c →
           ∃ a, coeff d m i j = Some a ∧
                coeff d m' i j = Some (ei_scalar_sum_op a scalar)).
Proof.
  repeat apply conj; try reflexivity.
  intros Ha.
  destruct (Array_lazyAssign_spec d (operator_plus_scalar d scalar) m r c)
    as (m' & E & Ha' & _ & Hcoeff).
  { destruct (Array_compatible d d m r c Ha Ha) as (? & ? & ? & ?).
    repeat split; try done. by apply CwiseUnaryOp_defined_on. }
  { apply CwiseUnaryOp_same_index_only, Array_same_index_only. }
  exists m'. repeat apply conj; try done.
  intros i j Hi Hj. destruct (allocated_coeff _ _ _ _ i j Ha Hi Hj) as [a Ea].
  exists a. split; [done|]. rewrite Hcoeff by done.
  simpl. unfold CwiseUnaryOp_coeff, operator_plus_scalar, derived. simpl.
  simpl in Ea. by rewrite Ea.
Qed.

(** C7. The explicit [operator=(const ArrayBase&)] and the generic template
    assignment give the same outcome in every memory, and for a destination
    and a source of one shape that outcome is the destination, holding the
    coefficients of the source, with no other container written. *)
Theorem explicit_assign_is_template_assign d (other : Array) m r c :
  operator_assign d other m = DenseBase_operator_assign d other m ∧
  (allocated d m r c → allocated other m r c →
   ∃ m', operator_assign d other m = Done d m' ∧
         allocated d m' r c ∧
         (∀ h, h ≠ m_storage d → m' !! h = m !! h) ∧
         ∀ i j, i < r → j < c → coeff d m' i j = coeff other m i j).
Proof.
  split; [reflexivity|]. intros Hd Ho.
  apply Array_lazyAssign_spec.
  - by apply Array_compatible.
  - apply Array_same_index_only.
Qed.

End Proofs.

(** ** The scenario of the spec, over exact integers *)

Lemma memAB_allocated_A : allocated arrayA memAB 2 2.
Proof. exists (storage22 1 3 2 4). repeat split. Qed.

Lemma memAB_allocated_B : allocated arrayB memAB 2 2.
Proof. exists (storage22 5 7 6 8). repeat split. Qed.

Lemma memAB_allocated_D : allocated arrayD memAB 2 2.
Proof. exists (storage22 0 0 0 0). repeat split. Qed.

Lemma memAB_compatible : compatible arrayA arrayB memAB 2 2.
Proof.
  apply Array_compatible; [apply memAB_allocated_A|apply memAB_allocated_B].
Qed.

Lemma memA0_compatible : compatible arrayA arrayB memA0 2 2.
Proof.
  apply Array_compatible;
    [exists (storage22 1 3 2 4)|exists (storage22 5 7 0 8)]; repeat split.
Qed.

(** [A + B] materializes to [[6,8],[10,12]]. *)
Example scenario_sum :
  final_data ((e ← operator_plus arrayA arrayB;
               DenseBase_operator_assign arrayD e) memAB) arrayD
  = Some [6; 10; 8; 12]%Z.
Proof. vm_compute. reflexivity. Qed.

(** [A -= B] mutates A to [[-4,-4],[-4,-4]] and leaves B as it was. *)
Example scenario_minus_assign :
  final_data (operator_minus_assign arrayA arrayB memAB) arrayA
  = Some [-4; -4; -4; -4]%Z ∧
  final_data (operator_minus_assign arrayA arrayB memAB) arrayB
  = Some [5; 7; 6; 8]%Z.
Proof. split; vm_compute; reflexivity. Qed.

(** After [A -= B], [A.array().matrix()] reads the mutated coefficients. *)
Example scenario_round_trip :
  ∀ m', operator_minus_assign arrayA arrayB memAB = Done arrayA m' →
    coeff (matrix (Scalar:=Z) (array (Scalar:=Z) arrayA)) m' 0 0 = Some (-4)%Z ∧
    coeff (matrix (Scalar:=Z) (array (Scalar:=Z) arrayA)) m' 1 0 = Some (-4)%Z ∧
    coeff (matrix (Scalar:=Z) (array (Scalar:=Z) arrayA)) m' 0 1 = Some (-4)%Z ∧
    coeff (matrix (Scalar:=Z) (array (Scalar:=Z) arrayA)) m' 1 1 = Some (-4)%Z.
Proof.
  intros m' E. vm_compute in E. injection E as <-.
  repeat split; vm_compute; reflexivity.
Qed.

(** A source that reads the destination at a permuted index falls outside
    [same_index_only], and the in-place update then depends on the order of
    the pass: [A += A.transpose()] leaves [[2,7],[5,8]], not the symmetric
    [[2,5],[5,8]]. *)
Example transposed_source_not_same_index :
  ¬ same_index_only (Scalar:=Z) arrayA {| tr_matrix := arrayA |}.
Proof.
  intros Hs.
  specialize (Hs memAB (<[0 := storage22 1 9 2 4]> memAB) 0 1).
  assert (Some 3%Z = Some 9%Z) as E; [|discriminate E].
  apply Hs. repeat split. intros h Hh. simpl in Hh.
  by rewrite lookup_insert_ne.
Qed.

Example transposed_source_order_dependent :
  final_data (operator_plus_assign arrayA {| tr_matrix := arrayA |} memAB)
    arrayA
  = Some [2; 5; 7; 8]%Z.
Proof. vm_compute. reflexivity. Qed.

(** ** The specifications at the scenario *)

Lemma compound_assign_in_place_witness :
  compatible arrayA arrayB memAB 2 2 ∧
  same_index_only (Scalar:=Z) arrayA arrayB ∧
  ∃ m', operator_plus_assign arrayA arrayB memAB = Done arrayA m' ∧
        in_place_updated ei_scalar_sum_op arrayA arrayB memAB m' 2 2.
Proof.
  split; [exact memAB_compatible|].
  split; [exact (Array_same_index_only arrayA arrayB)|].
  exact (proj1 (compound_assign_in_place arrayA arrayB memAB 2 2
                  memAB_compatible (Array_same_index_only arrayA arrayB))).
Defined.

Lemma self_times_assign_squares_witness :
  allocated arrayA memAB 2 2 ∧
  ∃ m', operator_times_assign arrayA arrayA memAB = Done arrayA m' ∧
        allocated arrayA m' 2 2 ∧
        ∀ i j, i < 2 → j < 2 →
          ∃ a, coeff arrayA memAB i j = Some a ∧
               coeff arrayA m' i j = Some (ei_scalar_product_op a a).
Proof.
  split; [exact memAB_allocated_A|].
  exact (self_times_assign_squares arrayA memAB 2 2 memAB_allocated_A).
Defined.

Lemma div_assign_unguarded_witness :
  compatible arrayA arrayB memA0 2 2 ∧
  same_index_only (Scalar:=Z) arrayA arrayB ∧
  0 < 2 ∧ 1 < 2 ∧
  coeff arrayA memA0 0 1 = Some 2%Z ∧
  coeff arrayB memA0 0 1 = Some 0%Z ∧
  ∃ m', operator_div_assign arrayA arrayB memA0 = Done arrayA m' ∧
        coeff arrayA m' 0 1 = Some (ei_scalar_quotient_op 2%Z 0%Z).
Proof.
  assert (0 < 2) as H0 by lia. assert (1 < 2) as H1 by lia.
  assert (coeff arrayA memA0 0 1 = Some 2%Z) as Ea by reflexivity.
  assert (coeff arrayB memA0 0 1 = Some 0%Z) as Ez by reflexivity.
  split; [exact memA0_compatible|].
  split; [exact (Array_same_index_only arrayA arrayB)|].
  do 4 (split; [assumption|]).
  exact (div_assign_unguarded arrayA arrayB memA0 2 2 0 1 2%Z 0%Z
           memA0_compatible (Array_same_index_only arrayA arrayB)
           H0 H1 Ea Ez).
Defined.

Lemma compound_assign_keeps_shape_witness :
  ∃ m', final_memory (operator_plus_assign arrayA arrayB memAB) = Some m' ∧
        rows arrayA m' = rows arrayA memAB ∧
        cols arrayA m' = cols arrayA memAB ∧
        size arrayA m' = size arrayA memAB.
Proof.
  destruct (final_memory (operator_plus_assign arrayA arrayB memAB))
    as [m'|] eqn:E.
  - exists m'. split; [reflexivity|].
    exact (proj1 (compound_assign_keeps_shape arrayA arrayB) memAB m' E).
  - vm_compute in E. discriminate E.
Defined.

Lemma assignments_return_this_witness :
  allocated arrayA memAB 2 2 ∧
  compatible arrayA arrayB memAB 2 2 ∧
  same_index_only (Scalar:=Z) arrayA arrayB ∧
  returned (operator_plus_assign_scalar arrayA 10%Z memAB) = Some arrayA ∧
  returned (operator_plus_assign arrayA arrayB memAB) = Some arrayA.
Proof.
  destruct (assignments_return_this arrayA arrayB arrayB 10%Z memAB 2 2)
    as (_ & _ & _ & _ & _ & _ & _ & Hscalar & Hexpr).
  destruct (Hscalar memAB_allocated_A) as (_ & Hplus & _).
  destruct (Hexpr memAB_compatible (Array_same_index_only arrayA arrayB))
    as (Hplus' & _).
  split; [exact memAB_allocated_A|].
  split; [exact memAB_compatible|].
  split; [exact (Array_same_index_only arrayA arrayB)|].
  split; assumption.
Defined.

Lemma shape_mismatch_aborts_witness :
  shape arrayC memAB = Some (3, 3) ∧
  shape arrayA memAB = Some (2, 2) ∧
  (3, 3) ≠ (2, 2) ∧
  operator_plus arrayC arrayA memAB = AssertFailed memAB ∧
  (e ← operator_plus arrayC arrayA; DenseBase_operator_assign arrayD e) memAB
  = AssertFailed memAB ∧
  operator_plus_assign arrayC arrayA memAB = AssertFailed memAB.
Proof.
  assert (shape arrayC memAB = Some (3, 3)) as HC by reflexivity.
  assert (shape arrayA memAB = Some (2, 2)) as HA by reflexivity.
  assert ((3, 3) ≠ (2, 2)) as Hne by discriminate.
  destruct (shape_mismatch_aborts arrayC arrayA arrayC arrayD memAB
              (3, 3) (2, 2) (3, 3) HC HA Hne HC Hne)
    as (Hplus & _ & _ & _ & Hassign & Hself & _).
  do 3 (split; [assumption|]).
  split; [exact Hplus|]. split; [exact Hassign|exact Hself].
Defined.


Lemma scalar_plus_broadcast_witness :
  allocated arrayA memAB 2 2 ∧
  ∃ m', operator_plus_assign_scalar arrayA 10%Z memAB = Done arrayA m' ∧
        allocated arrayA m' 2 2 ∧
        ∀ i j, i < 2 → j < 2 →
          ∃ a, coeff arrayA memAB i j = Some a ∧
               coeff arrayA m' i j = Some (ei_scalar_sum_op a 10%Z).
Proof.
  split; [exact memAB_allocated_A|].
  destruct (scalar_plus_broadcast arrayA arrayA 10%Z memAB 2 2)
    as (_ & _ & _ & _ & _ & Hpost).
  exact (Hpost memAB_allocated_A).
Defined.

Lemma explicit_assign_is_template_assign_witness :
  allocated arrayD memAB 2 2 ∧
  allocated arrayA memAB 2 2 ∧
  ∃ m', operator_assign arrayD arrayA memAB = Done arrayD m' ∧
        allocated arrayD m' 2 2 ∧
        (∀ h, h ≠ m_storage arrayD → m' !! h = memAB !! h) ∧
        ∀ i j, i < 2 → j < 2 → coeff arrayD m' i j = coeff arrayA memAB i j.
Proof.
  split; [exact memAB_allocated_D|]. split; [exact memAB_allocated_A|].
  exact (proj2 (explicit_assign_is_template_assign arrayD arrayA memAB 2 2)
           memAB_allocated_D memAB_allocated_A).
Defined.

(** * Further properties of the operators *)

Section Further.
Context {Scalar : Type} `{!NumTraits Scalar}.
Implicit Types (m : gmap nat (@DenseStorage Scalar)) (d : Array).

(** ** Memories are determined by their coefficients *)

Lemma linear_index_split r c k :
  k < r * c → k mod r < r ∧ k / r < c ∧ k = k mod r + k / r * r.
Proof.
  intros Hk. assert (r ≠ 0) as Hr by lia.
  split; [by apply Nat.mod_upper_bound|].
  split; [apply Nat.Div0.div_lt_upper_bound; lia|].
  pose proof (Nat.div_mod_eq k r). lia.
Qed.

Lemma memory_ext d m m' r c :
  allocated d m r c → allocated d m' r c →
  (∀ h, h ≠ m_storage d → m' !! h = m !! h) →
  (∀ i j, i < r → j < c → coeff d m' i j = coeff d m i j) →
  m' = m.
Proof.
  intros (s & Hs & Hr & Hc & Hwf) (s' & Hs' & Hr' & Hc' & Hwf') Hframe Hco.
  apply map_eq. intros h.
  destruct (decide (h = m_storage d)) as [->|Hne]; [|by apply Hframe].
  rewrite Hs, Hs'. f_equal.
  assert (m_data s' = m_data s) as Hdata.
  { apply list_eq. intros k. destruct (decide (k < r * c)) as [Hk|Hk].
    - destruct (linear_index_split r c k Hk) as (Hi & Hj & Ek).
      specialize (Hco _ _ Hi Hj). simpl in Hco. unfold Array_coeff in Hco.
      rewrite Hs, Hs' in Hco. simpl in Hco.
      rewrite !decide_True in Hco by (split; congruence).
      rewrite Hr, Hr', <- Ek in Hco. done.
    - unfold wf_storage in Hwf, Hwf'.
      rewrite !lookup_ge_None_2; [done|rewrite Hwf|rewrite Hwf'];
        rewrite ?Hr, ?Hc, ?Hr', ?Hc'; lia. }
  destruct s, s'. simpl in *. congruence.
Qed.

(** ** What the operators leave alone *)

Lemma touches_only_ret {R} d (x : R) : touches_only (Scalar:=Scalar) d (mret x).
Proof. intros m m' [= <-]. done. Qed.

Lemma touches_only_bind {R S} d (c : M Scalar R) (k : R → M Scalar S) :
  touches_only d c → (∀ x, touches_only d (k x)) → touches_only d (c ≫= k).
Proof.
  intros Hc Hk m m2 Hf h Hh.
  apply bind_final_memory in Hf as [(x & m1 & E & Hf)|E].
  - rewrite (Hk x m1 m2 Hf h Hh). apply (Hc m m1); [by rewrite E|done].
  - apply (Hc m m2); [by rewrite E|done].
Qed.

Lemma touches_only_assert d b : touches_only (Scalar:=Scalar) d (ei_assert b).
Proof. intros m m'. unfold ei_assert. destruct b; intros [= <-]; done. Qed.

Lemma touches_only_read {R} d (f : Memory → option R) :
  touches_only (Scalar:=Scalar) d (M_read f).
Proof.
  intros m m'. unfold M_read. destruct (f m); [|done]. intros [= <-]. done.
Qed.

Lemma touches_only_write d i j (v : Scalar) :
  touches_only d (M_write (Array_coeffRef_set d i j v)).
Proof.
  intros m m'. unfold M_write, Array_coeffRef_set.
  destruct (m !! m_storage d) as [s|]; simpl; [|done].
  case_decide; [|done]. intros [= <-] h Hh. by apply lookup_insert_ne.
Qed.

Lemma touches_only_for_each {X} d (l : list X) (body : X → M Scalar unit) :
  (∀ x, touches_only d (body x)) → touches_only d (for_each l body).
Proof.
  intros Hb. induction l as [|x l IH]; simpl.
  - apply touches_only_ret.
  - apply touches_only_bind; [apply Hb|done].
Qed.

Lemma touches_only_assert_same_size {L R}
    `{!DenseBase Scalar L, !DenseBase Scalar R} d (l : L) (r : R) :
  touches_only d (assert_same_size l r).
Proof.
  unfold assert_same_size.
  apply touches_only_bind; [apply touches_only_read|intros sl].
  apply touches_only_bind; [apply touches_only_read|intros sr].
  apply touches_only_assert.
Qed.

Lemma touches_only_SelfCwiseBinaryOp_assign {O} `{!DenseBase Scalar O}
    f d (src : O) :
  touches_only d (SelfCwiseBinaryOp_assign (SelfCwiseBinaryOp_new f d) src).
Proof.
  unfold SelfCwiseBinaryOp_assign.
  apply touches_only_bind; [apply touches_only_assert_same_size|intros _].
  apply touches_only_bind; [apply touches_only_read|intros s].
  unfold ei_assign_impl_run.
  apply touches_only_for_each. intros outer.
  apply touches_only_for_each. intros inner.
  unfold SelfCwiseBinaryOp_copyCoeff.
  apply touches_only_bind; [apply touches_only_read|intros a].
  apply touches_only_bind; [apply touches_only_read|intros b].
  apply touches_only_write.
Qed.

Lemma touches_only_lazyAssign {O} `{!DenseBase Scalar O} d (src : O) :
  touches_only d (Array_lazyAssign d src).
Proof.
  unfold Array_lazyAssign.
  apply touches_only_bind; [apply touches_only_assert_same_size|intros _].
  apply touches_only_bind; [apply touches_only_read|intros s].
  apply touches_only_bind; [|intros _; apply touches_only_ret].
  unfold ei_assign_impl_run.
  apply touches_only_for_each. intros outer.
  apply touches_only_for_each. intros inner.
  unfold Array_copyCoeff.
  apply touches_only_bind; [apply touches_only_read|intros v].
  apply touches_only_write.
Qed.

Lemma keeps_shape_lazyAssign {O} `{!DenseBase Scalar O} d (src : O) :
  keeps_shape d (Array_lazyAssign d src).
Proof.
  unfold Array_lazyAssign.
  apply keeps_shape_bind; [apply keeps_shape_assert_same_size|intros _].
  apply keeps_shape_bind; [apply keeps_shape_read|intros s].
  apply keeps_shape_bind; [|intros _; apply keeps_shape_ret].
  unfold ei_assign_impl_run.
  apply keeps_shape_for_each. intros outer.
  apply keeps_shape_for_each. intros inner.
  unfold Array_copyCoeff.
  apply keeps_shape_bind; [apply keeps_shape_read|intros v].
  apply keeps_shape_write.
Qed.

(** ** Sources that do not read the destination *)

Lemma independent_same_index_only {O} `{!DenseBase Scalar O} d (src : O) :
  independent_of d src → same_index_only d src.
Proof. intros Hi m m' i j (Hframe & _). by apply Hi. Qed.

Lemma Array_independent_of d (o : Array) :
  m_storage o ≠ m_storage d → independent_of (Scalar:=Scalar) d o.
Proof.
  intros Hne m m' Hframe. simpl. unfold Array_rows, Array_cols, Array_coeff.
  by rewrite (Hframe _ Hne).
Qed.

Lemma independent_compatible {O} `{!DenseBase Scalar O} d (src : O)
    m m' r c :
  independent_of d src → compatible d src m r c →
  allocated d m' r c → (∀ h, h ≠ m_storage d → m' !! h = m !! h) →
  compatible d src m' r c.
Proof.
  intros Hi (_ & Hr & Hc & Hdef) Ha Hframe.
  destruct (Hi m' m Hframe) as (Er & Ec & Eco).
  repeat split; [done|congruence..|].
  intros i j Hi' Hj'. rewrite Eco. by apply Hdef.
Qed.

(** ** Empty destinations *)

Lemma positions_empty r c : r * c = 0 → positions r c = [].
Proof.
  intros Hz. apply elem_of_nil_inv. intros [i j] Hin.
  apply elem_of_positions in Hin. nia.
Qed.

Lemma ei_assign_impl_run_empty (copyCoeff : nat → nat → M Scalar unit) r c m :
  r * c = 0 → ei_assign_impl_run copyCoeff r c m = Done tt m.
Proof.
  intros Hz. rewrite ei_assign_impl_run_positions.
  by rewrite (positions_empty r c Hz).
Qed.

Lemma compound_assign_empty_spec {O} `{!DenseBase Scalar O} f d (src : O)
    m r c :
  allocated d m r c → rows src m = Some r → cols src m = Some c → r * c = 0 →
  (SelfCwiseBinaryOp_assign (SelfCwiseBinaryOp_new f d) src ;; mret d) m
  = Done d m.
Proof.
  intros Ha Hr Hc Hz.
  pose proof (allocated_shape_pair _ _ _ _ Ha) as Hd.
  pose proof (shape_Some src m r c Hr Hc) as Hs.
  rewrite M_bind_unfold. unfold SelfCwiseBinaryOp_assign. simpl self_matrix.
  rewrite M_bind_unfold, (assert_same_size_ok _ _ _ _ Hd Hs).
  rewrite M_read_bind, Hd. simpl.
  by rewrite (ei_assign_impl_run_empty _ r c m Hz).
Qed.

(** X1. On a destination with no coefficient (zero rows or zero columns)
    every in-place compound assignment with a source of that shape returns
    the destination and leaves the memory exactly as it was, whatever the
    source's coefficients are. *)
Theorem compound_assign_empty {O} `{!ArrayBase Scalar O} d (src : O) m r c :
  allocated d m r c → rows src m = Some r → cols src m = Some c → r * c = 0 →
  operator_plus_assign d src m = Done d m ∧
  operator_minus_assign d src m = Done d m ∧
  operator_times_assign d src m = Done d m ∧
  operator_div_assign d src m = Done d m.
Proof.
  intros Ha Hr Hc Hz. repeat apply conj; by eapply compound_assign_empty_spec.
Qed.

(** ** Scalar compound assignment *)

Lemma unary_assign_spec d (g : Scalar → Scalar) m r c :
  allocated d m r c →
  ∃ m', Array_lazyAssign d {| un_functor := g; un_xpr := d |} m = Done d m' ∧
        allocated d m' r c ∧
        (∀ h, h ≠ m_storage d → m' !! h = m !! h) ∧
        ∀ i j, i < r → j < c →
          ∃ a, coeff d m i j = Some a ∧ coeff d m' i j = Some (g a).
Proof.
  intros Ha.
  destruct (Array_lazyAssign_spec d {| un_functor := g; un_xpr := d |} m r c)
    as (m' & E & Ha' & Hframe & Hcoeff).
  { destruct (Array_compatible d d m r c Ha Ha) as (? & ? & ? & ?).
    repeat split; try done. by apply CwiseUnaryOp_defined_on. }
  { apply CwiseUnaryOp_same_index_only, Array_same_index_only. }
  exists m'. repeat apply conj; try done.
  intros i j Hi Hj. destruct (allocated_coeff _ _ _ _ i j Ha Hi Hj) as [a Ea].
  exists a. split; [done|]. rewrite Hcoeff by done.
  simpl. unfold CwiseUnaryOp_coeff. simpl. simpl in Ea. by rewrite Ea.
Qed.

(** X2. [d -= scalar] on a live container completes, returns [d], keeps
    its shape, writes no other container, and leaves every coefficient equal
    to its old value minus the scalar. *)
Theorem minus_assign_scalar_correct d (scalar : Scalar) m r c :
  allocated d m r c →
  ∃ m', operator_minus_assign_scalar d scalar m = Done d m' ∧
        allocated d m' r c ∧
        (∀ h, h ≠ m_storage d → m' !! h = m !! h) ∧
        ∀ i j, i < r → j < c →
          ∃ a, coeff d m i j = Some a ∧
               coeff d m' i j = Some (ei_scalar_difference_op a scalar).
Proof.
  intros Ha.
  exact (unary_assign_spec d (λ a, ei_scalar_difference_op a scalar) m r c Ha).
Qed.

(** X3. Over exact scalars, [d += scalar] followed by [d -= scalar] on the
    returned reference gives back the destination and the memory it started
    from. *)
Theorem plus_minus_scalar_round_trip `{!ExactScalar Scalar} d
    (scalar : Scalar) m r c :
  allocated d m r c →
  (x ← operator_plus_assign_scalar d scalar;
   operator_minus_assign_scalar x scalar) m = Done d m.
Proof.
  intros Ha.
  destruct (unary_assign_spec d (λ a, ei_scalar_sum_op a scalar) m r c Ha)
    as (m1 & E1 & Ha1 & Hf1 & Hc1).
  destruct (unary_assign_spec d (λ a, ei_scalar_difference_op a scalar)
              m1 r c Ha1) as (m2 & E2 & Ha2 & Hf2 & Hc2).
  rewrite M_bind_unfold.
  unfold operator_plus_assign_scalar, operator_minus_assign_scalar,
    DenseBase_operator_assign, ei_assign_selector_run, operator_plus_scalar,
    operator_minus_scalar, derived.
  rewrite E1, E2. f_equal.
  apply (memory_ext d m m2 r c Ha Ha2).
  - intros h Hh. rewrite Hf2 by done. by apply Hf1.
  - intros i j Hi Hj.
    destruct (Hc1 i j Hi Hj) as (a & Ea & Ea1).
    destruct (Hc2 i j Hi Hj) as (a1 & Ea1' & Ea2).
    rewrite Ea2, Ea. rewrite Ea1 in Ea1'. injection Ea1' as <-.
    by rewrite difference_sum.
Qed.

(** X4. The scalar compound assignments never change the destination's row
    count, column count or size, and never write or create a container
    other than the destination, in whatever memory they stop. *)
Theorem scalar_assign_keeps_shape_and_frame d (scalar : Scalar) :
  keeps_shape d (operator_plus_assign_scalar d scalar) ∧
  keeps_shape d (operator_minus_assign_scalar d scalar) ∧
  touches_only d (operator_plus_assign_scalar d scalar) ∧
  touches_only d (operator_minus_assign_scalar d scalar).
Proof.
  repeat apply conj;
    first [apply keeps_shape_lazyAssign|apply touches_only_lazyAssign].
Qed.

(** ** In-place update against assignment of the node *)

Lemma compound_assign_as_assign {O} `{!ArrayBase Scalar O} f d (src : O)
    m r c :
  compatible d src m r c → same_index_only d src →
  (SelfCwiseBinaryOp_assign (SelfCwiseBinaryOp_new f d) src ;; mret d) m
  = (e ← CwiseBinaryOp_new f d src; DenseBase_operator_assign d e) m.
Proof.
  intros Hc Hs.
  destruct (compound_assign_spec f d src m r c Hc Hs)
    as (m1 & E1 & Ha1 & Hf1 & Hc1).
  destruct (compatible_shapes _ _ _ _ _ Hc) as [Hd Hsrc].
  pose proof Hc as (Ha & Hr & Hcs & Hdef).
  set (e := {| bin_functor := f; bin_lhs := d; bin_rhs := src |}).
  destruct (Array_lazyAssign_spec d e m r c) as (m2 & E2 & Ha2 & Hf2 & Hc2).
  { destruct (allocated_shape _ _ _ _ Ha) as [Hrd Hcd].
    repeat split; try done.
    apply CwiseBinaryOp_defined_on; [|done].
    intros i j Hi Hj. by eapply allocated_coeff. }
  { apply CwiseBinaryOp_same_index_only; [apply Array_same_index_only|done]. }
  rewrite E1. symmetry. rewrite M_bind_unfold. unfold CwiseBinaryOp_new.
  rewrite M_bind_unfold, (assert_same_size_ok d src m _ Hd Hsrc). simpl.
  unfold DenseBase_operator_assign, ei_assign_selector_run, derived.
  change (Array_lazyAssign d e m = Done d m1). rewrite E2. f_equal.
  apply (memory_ext d m1 m2 r c Ha1 Ha2).
  - intros h Hh. rewrite Hf2, Hf1 by done. done.
  - intros i j Hi Hj. rewrite Hc2, Hc1 by done. done.
Qed.

(** X5. As their documentation says ("replaces *this by *this + other"),
    for a compatible source that reads the destination at the same index
    only, each in-place compound assignment has exactly the outcome, return
    value and final memory, of building the binary node and assigning it to
    the destination. *)
Theorem compound_assign_is_assign_of_node {O} `{!ArrayBase Scalar O} d
    (src : O) m r c :
  compatible d src m r c → same_index_only d src →
  operator_plus_assign d src m
  = (e ← operator_plus d src; DenseBase_operator_assign d e) m ∧
  operator_minus_assign d src m
  = (e ← operator_minus d src; DenseBase_operator_assign d e) m ∧
  operator_times_assign d src m
  = (e ← operator_times d src; DenseBase_operator_assign d e) m ∧
  operator_div_assign d src m
  = (e ← operator_div d src; DenseBase_operator_assign d e) m.
Proof.
  intros Hc Hs. repeat apply conj; by eapply compound_assign_as_assign.
Qed.

(** ** Composing in-place updates *)

Lemma in_place_updated_coeff {O} `{!DenseBase Scalar O} f d (src : O)
    m m' r c i j a b :
  in_place_updated f d src m m' r c → i < r → j < c →
  coeff d m i j = Some a → coeff src m i j = Some b →
  coeff d m' i j = Some (f a b).
Proof.
  intros (_ & _ & Hco) Hi Hj Ea Eb. rewrite Hco by done.
  unfold CwiseBinaryOp_coeff. simpl bin_lhs. simpl bin_rhs.
  by rewrite Ea, Eb.
Qed.

(** X6. Over exact scalars, for a compatible source that reads nothing of
    the destination, [d += src] followed by [d -= src] on the returned
    reference gives back the destination and the memory it started from. *)
Theorem plus_minus_assign_round_trip `{!ExactScalar Scalar} {O}
    `{!ArrayBase Scalar O} d (src : O) m r c :
  compatible d src m r c → independent_of d src →
  (x ← operator_plus_assign d src; operator_minus_assign x src) m = Done d m.
Proof.
  intros Hc Hi.
  pose proof (independent_same_index_only d src Hi) as Hs.
  destruct (compound_assign_spec ei_scalar_sum_op d src m r c Hc Hs)
    as (m1 & E1 & Hu1).
  pose proof Hu1 as (Ha1 & Hf1 & _).
  pose proof (independent_compatible d src m m1 r c Hi Hc Ha1 Hf1) as Hc1.
  destruct (compound_assign_spec ei_scalar_difference_op d src m1 r c Hc1 Hs)
    as (m2 & E2 & Hu2).
  pose proof Hu2 as (Ha2 & Hf2 & _).
  rewrite M_bind_unfold. unfold operator_plus_assign, derived. cbv zeta.
  rewrite E1. unfold operator_minus_assign, derived. cbv zeta.
  rewrite E2. f_equal.
  destruct Hc as (Ha & _ & _ & Hdef).
  apply (memory_ext d m m2 r c Ha Ha2).
  - intros h Hh. rewrite Hf2 by done. by apply Hf1.
  - intros i j Hi' Hj'.
    destruct (allocated_coeff _ _ _ _ i j Ha Hi' Hj') as [a Ea].
    destruct (Hdef i j Hi' Hj') as [b Eb].
    destruct (Hi m1 m Hf1) as (_ & _ & Eco).
    rewrite (in_place_updated_coeff _ d src m1 m2 r c i j
               (ei_scalar_sum_op a b) b Hu2 Hi' Hj').
    + by rewrite difference_sum.
    + exact (in_place_updated_coeff _ d src m m1 r c i j a b
               Hu1 Hi' Hj' Ea Eb).
    + by rewrite Eco.
Qed.

(** X7. When addition is associative, for compatible sources [a] and [b]
    that read nothing of the destination, [d += a] followed by [d += b] has
    the outcome of the single update [d += (a + b)]. *)
Theorem plus_assign_twice {A B} `{!ArrayBase Scalar A, !ArrayBase Scalar B}
    d (a : A) (b : B) m r c :
  (∀ x y z : Scalar, ei_scalar_sum_op (ei_scalar_sum_op x y) z
                     = ei_scalar_sum_op x (ei_scalar_sum_op y z)) →
  compatible d a m r c → compatible d b m r c →
  independent_of d a → independent_of d b →
  (x ← operator_plus_assign d a; operator_plus_assign x b) m
  = (e ← operator_plus a b; operator_plus_assign d e) m.
Proof.
  intros Hassoc Hca Hcb Hia Hib.
  pose proof (independent_same_index_only d a Hia) as Hsa.
  pose proof (independent_same_index_only d b Hib) as Hsb.
  destruct (compound_assign_spec ei_scalar_sum_op d a m r c Hca Hsa)
    as (m1 & E1 & Hu1).
  pose proof Hu1 as (Ha1 & Hf1 & _).
  pose proof (independent_compatible d b m m1 r c Hib Hcb Ha1 Hf1) as Hcb1.
  destruct (compound_assign_spec ei_scalar_sum_op d b m1 r c Hcb1 Hsb)
    as (m2 & E2 & Hu2).
  pose proof Hu2 as (Ha2 & Hf2 & _).
  set (e := {| bin_functor := ei_scalar_sum_op; bin_lhs := a; bin_rhs := b |}).
  pose proof Hca as (Ha & Hra & Hcolsa & Hdefa).
  pose proof Hcb as (_ & Hrb & Hcolsb & Hdefb).
  assert (compatible d e m r c) as Hce.
  { repeat split; try done. by apply CwiseBinaryOp_defined_on. }
  assert (same_index_only d e) as Hse.
  { by apply CwiseBinaryOp_same_index_only. }
  destruct (compound_assign_spec ei_scalar_sum_op d e m r c Hce Hse)
    as (m3 & E3 & Hu3).
  pose proof Hu3 as (Ha3 & Hf3 & _).
  rewrite M_bind_unfold. unfold operator_plus_assign at 1. unfold derived.
  cbv zeta. rewrite E1. unfold operator_plus_assign at 1. unfold derived.
  cbv zeta. rewrite E2.
  rewrite M_bind_unfold. unfold operator_plus, CwiseBinaryOp_new, derived.
  rewrite M_bind_unfold.
  rewrite (assert_same_size_ok a b m (r, c)) by (by apply shape_Some).
  simpl. unfold operator_plus_assign, derived. cbv zeta.
  change (Done d m2
          = (SelfCwiseBinaryOp_assign
               (SelfCwiseBinaryOp_new ei_scalar_sum_op d) e ;; mret d) m).
  rewrite E3. f_equal.
  apply (memory_ext d m3 m2 r c Ha3 Ha2).
  - intros h Hh. rewrite Hf2, Hf1, Hf3 by done. done.
  - intros i j Hi Hj.
    destruct (allocated_coeff _ _ _ _ i j Ha Hi Hj) as [x Ex].
    destruct (Hdefa i j Hi Hj) as [y Ey].
    destruct (Hdefb i j Hi Hj) as [z Ez].
    destruct (Hib m1 m Hf1) as (_ & _ & Eb).
    rewrite (in_place_updated_coeff _ d b m1 m2 r c i j
               (ei_scalar_sum_op x y) z Hu2 Hi Hj).
    + rewrite (in_place_updated_coeff _ d e m m3 r c i j
                 x (ei_scalar_sum_op y z) Hu3 Hi Hj Ex).
      * by rewrite Hassoc.
      * simpl. unfold CwiseBinaryOp_coeff. simpl. by rewrite Ey, Ez.
    + exact (in_place_updated_coeff _ d a m m1 r c i j x y Hu1 Hi Hj Ex Ey).
    + by rewrite Eb.
Qed.

(** ** Self-aliasing and self-assignment *)

(** X8. A destination used as its own source is combined with itself index
    by index: [d += d], [d -= d] and [d /= d] complete and leave at every
    index the functor applied to the old coefficient twice. *)
Theorem self_aliased_compound_assign d m r c :
  allocated d m r c →
  (∃ m', operator_plus_assign d d m = Done d m' ∧
         ∀ i j, i < r → j < c →
           ∃ a, coeff d m i j = Some a ∧
                coeff d m' i j = Some (ei_scalar_sum_op a a)) ∧
  (∃ m', operator_minus_assign d d m = Done d m' ∧
         ∀ i j, i < r → j < c →
           ∃ a, coeff d m i j = Some a ∧
                coeff d m' i j = Some (ei_scalar_difference_op a a)) ∧
  (∃ m', operator_div_assign d d m = Done d m' ∧
         ∀ i j, i < r → j < c →
           ∃ a, coeff d m i j = Some a ∧
                coeff d m' i j = Some (ei_scalar_quotient_op a a)).
Proof.
  intros Ha.
  assert (∀ f, ∃ m',
            (SelfCwiseBinaryOp_assign (SelfCwiseBinaryOp_new f d) d ;; mret d) m
            = Done d m' ∧
            ∀ i j, i < r → j < c →
              ∃ a, coeff d m i j = Some a ∧ coeff d m' i j = Some (f a a))
    as Hall.
  { intros f.
    destruct (compound_assign_spec f d d m r c) as (m' & E & Hu).
    { by apply Array_compatible. }
    { apply Array_same_index_only. }
    exists m'. split; [done|]. intros i j Hi Hj.
    destruct (allocated_coeff _ _ _ _ i j Ha Hi Hj) as [a Ea].
    exists a. split; [done|].
    exact (in_place_updated_coeff f d d m m' r c i j a a Hu Hi Hj Ea Ea). }
  repeat apply conj; apply Hall.
Qed.

(** X9. Self-assignment [d = d] through the explicit [operator=] of a live
    container returns [d] and leaves the memory exactly as it was. *)
Theorem self_assign_is_noop d m r c :
  allocated d m r c → operator_assign d d m = Done d m.
Proof.
  intros Ha.
  destruct (Array_lazyAssign_spec d d m r c) as (m' & E & Ha' & Hf & Hco).
  { by apply Array_compatible. }
  { apply Array_same_index_only. }
  unfold operator_assign, ei_assign_selector_run, derived. rewrite E.
  f_equal. by apply (memory_ext d m m' r c).
Qed.

(** ** The frame of the expression operators *)

(** X10. Whatever the source, and in whatever memory they stop, the four
    in-place compound assignments and the explicit [operator=] never write
    or create a container other than the destination; a right-hand side
    stored elsewhere is left as it was. *)
Theorem assignments_touch_only_destination {O} `{!ArrayBase Scalar O} d
    (src : O) (other : Array) :
  touches_only d (operator_plus_assign d src) ∧
  touches_only d (operator_minus_assign d src) ∧
  touches_only d (operator_times_assign d src) ∧
  touches_only d (operator_div_assign d src) ∧
  touches_only (Scalar:=Scalar) d (operator_assign d other).
Proof.
  repeat apply conj;
    first [apply touches_only_lazyAssign
          |apply touches_only_bind;
           [apply touches_only_SelfCwiseBinaryOp_assign
           |intros _; apply touches_only_ret]].
Qed.

End Further.

Section Aborts.
Context {Scalar : Type} `{!NumTraits Scalar}.
Implicit Types (m : gmap nat (@DenseStorage Scalar)) (d : Array).

(** ** When the operators abort *)

Lemma never_asserts_ret {R} (x : R) : never_asserts (Scalar:=Scalar) (mret x).
Proof. intros m m'. discriminate. Qed.

Lemma never_asserts_bind {R S} (c : M Scalar R) (k : R → M Scalar S) :
  never_asserts c → (∀ x, never_asserts (k x)) → never_asserts (c ≫= k).
Proof.
  intros Hc Hk m m'. rewrite M_bind_unfold.
  destruct (c m) as [x m1|m1|] eqn:E; [apply Hk| |discriminate].
  by destruct (Hc m m1).
Qed.

Lemma never_asserts_read {R} (f : Memory → option R) :
  never_asserts (Scalar:=Scalar) (M_read f).
Proof. intros m m'. unfold M_read. by destruct (f m). Qed.

Lemma never_asserts_write (f : Memory → option Memory) :
  never_asserts (Scalar:=Scalar) (M_write f).
Proof. intros m m'. unfold M_write. by destruct (f m). Qed.

Lemma never_asserts_for_each {X} (l : list X) (body : X → M Scalar unit) :
  (∀ x, never_asserts (body x)) → never_asserts (for_each l body).
Proof.
  intros Hb. induction l as [|x l IH]; simpl.
  - apply never_asserts_ret.
  - apply never_asserts_bind; [apply Hb|done].
Qed.

Lemma never_asserts_ei_assign_impl_run
    (copyCoeff : nat → nat → M Scalar unit) r c :
  (∀ i j, never_asserts (copyCoeff i j)) →
  never_asserts (ei_assign_impl_run copyCoeff r c).
Proof.
  intros Hc. unfold ei_assign_impl_run.
  apply never_asserts_for_each. intros outer.
  apply never_asserts_for_each. intros inner. apply Hc.
Qed.

Lemma assert_same_size_aborts {L R}
    `{!DenseBase Scalar L, !DenseBase Scalar R} (l : L) (r : R) m m' :
  assert_same_size l r m = AssertFailed m' →
  m' = m ∧ ∃ sl sr, shape l m = Some sl ∧ shape r m = Some sr ∧ sl ≠ sr.
Proof.
  unfold assert_same_size. rewrite M_read_bind.
  destruct (shape l m) as [sl|]; [|done]. rewrite M_read_bind.
  destruct (shape r m) as [sr|]; [|done].
  unfold ei_assert. case_bool_decide; [done|].
  intros [= <-]. split; [done|]. by exists sl, sr.
Qed.

Lemma compound_assign_aborts {O} `{!DenseBase Scalar O} f d (src : O) m m' :
  (SelfCwiseBinaryOp_assign (SelfCwiseBinaryOp_new f d) src ;; mret d) m
  = AssertFailed m' →
  m' = m ∧ ∃ sd ss, shape d m = Some sd ∧ shape src m = Some ss ∧ sd ≠ ss.
Proof.
  assert (never_asserts
            (s ← M_read (shape d);
             ei_assign_impl_run
               (λ i j, SelfCwiseBinaryOp_copyCoeff (SelfCwiseBinaryOp_new f d)
                         i j src) s.1 s.2)) as Hloop.
  { apply never_asserts_bind; [apply never_asserts_read|].
    intros s. apply never_asserts_ei_assign_impl_run. intros i j.
    unfold SelfCwiseBinaryOp_copyCoeff.
    apply never_asserts_bind; [apply never_asserts_read|intros a].
    apply never_asserts_bind; [apply never_asserts_read|intros b].
    apply never_asserts_write. }
  rewrite M_bind_unfold. unfold SelfCwiseBinaryOp_assign. simpl self_matrix.
  rewrite M_bind_unfold.
  pose proof (assert_same_size_final d src m) as Hfin.
  destruct (assert_same_size d src m) as [[] m1|m1|] eqn:E; [| |done].
  - destruct Hfin as [-> _]. intros Hab. exfalso.
    match type of Hab with
    | match ?o with _ => _ end = _ =>
        destruct o as [x m2|m2|] eqn:E2; [done| |done]
    end.
    by destruct (Hloop m m2).
  - intros [= <-]. by apply assert_same_size_aborts.
Qed.

(** X11. An in-place compound assignment fails the assertion only on a shape
    mismatch and only before its first write: whenever one of [+=], [-=],
    [*=], [/=] ends in a failed assertion, the memory is the initial one and
    the shapes of destination and source differ. *)
Theorem compound_assign_aborts_only_on_mismatch {O} `{!ArrayBase Scalar O} d
    (src : O) m m' :
  operator_plus_assign d src m = AssertFailed m' ∨
  operator_minus_assign d src m = AssertFailed m' ∨
  operator_times_assign d src m = AssertFailed m' ∨
  operator_div_assign d src m = AssertFailed m' →
  m' = m ∧ ∃ sd ss, shape d m = Some sd ∧ shape src m = Some ss ∧ sd ≠ ss.
Proof.
  intros [H|[H|[H|H]]]; by eapply compound_assign_aborts.
Qed.

(** X12. The scalar compound assignments never fail the assertion: the
    shape of [d + scalar] is the shape of [d], whatever the memory. *)
Theorem scalar_assign_never_asserts d (scalar : Scalar) :
  never_asserts (operator_plus_assign_scalar d scalar) ∧
  never_asserts (operator_minus_assign_scalar d scalar).
Proof.
  assert (∀ g : Scalar → Scalar,
            never_asserts
              (Array_lazyAssign d {| un_functor := g; un_xpr := d |})) as Hall.
  { intros g m m'. unfold Array_lazyAssign. rewrite M_bind_unfold.
    pose proof (assert_same_size_aborts d
                  {| un_functor := g; un_xpr := d |} m) as Hab.
    destruct (assert_same_size d _ m) as [[] m1|m1|] eqn:E; [| |done].
    - apply never_asserts_bind; [apply never_asserts_read|intros s].
      apply never_asserts_bind; [|intros _; apply never_asserts_ret].
      apply never_asserts_ei_assign_impl_run. intros i j.
      unfold Array_copyCoeff.
      apply never_asserts_bind; [apply never_asserts_read|intros v].
      apply never_asserts_write.
    - destruct (Hab m1 eq_refl) as (_ & sd & ss & Hd & Hs & Hne).
      unfold shape in Hd, Hs. simpl in Hd, Hs. congruence. }
  split; apply Hall.
Qed.

End Aborts.

(** ** The further properties at the scenario *)

Lemma memE_allocated_E : allocated arrayE memE 0 3.
Proof. exists {| m_rows := 0; m_cols := 3; m_data := [] |}. repeat split. Qed.

Lemma memAB_compatible_D : compatible arrayA arrayD memAB 2 2.
Proof.
  apply Array_compatible; [apply memAB_allocated_A|apply memAB_allocated_D].
Qed.

Lemma arrayB_independent_of_A : independent_of (Scalar:=Z) arrayA arrayB.
Proof. apply Array_independent_of. discriminate. Qed.

Lemma arrayD_independent_of_A : independent_of (Scalar:=Z) arrayA arrayD.
Proof. apply Array_independent_of. discriminate. Qed.

Lemma compound_assign_empty_witness :
  allocated arrayE memE 0 3 ∧
  rows arrayF memE = Some 0 ∧ cols arrayF memE = Some 3 ∧ 0 * 3 = 0 ∧
  operator_plus_assign arrayE arrayF memE = Done arrayE memE.
Proof.
  assert (rows arrayF memE = Some 0) as Hr by reflexivity.
  assert (cols arrayF memE = Some 3) as Hc by reflexivity.
  assert (0 * 3 = 0) as Hz by reflexivity.
  split; [exact memE_allocated_E|]. do 3 (split; [assumption|]).
  exact (proj1 (compound_assign_empty arrayE arrayF memE 0 3
                  memE_allocated_E Hr Hc Hz)).
Defined.

Lemma minus_assign_scalar_correct_witness :
  allocated arrayA memAB 2 2 ∧
  ∃ m', operator_minus_assign_scalar arrayA 10%Z memAB = Done arrayA m' ∧
        allocated arrayA m' 2 2 ∧
        (∀ h, h ≠ m_storage arrayA → m' !! h = memAB !! h) ∧
        ∀ i j, i < 2 → j < 2 →
          ∃ a, coeff arrayA memAB i j = Some a ∧
               coeff arrayA m' i j = Some (ei_scalar_difference_op a 10%Z).
Proof.
  split; [exact memAB_allocated_A|].
  exact (minus_assign_scalar_correct arrayA 10%Z memAB 2 2 memAB_allocated_A).
Defined.

Lemma plus_minus_scalar_round_trip_witness :
  allocated arrayA memAB 2 2 ∧
  (x ← operator_plus_assign_scalar arrayA 10%Z;
   operator_minus_assign_scalar x 10%Z) memAB = Done arrayA memAB.
Proof.
  split; [exact memAB_allocated_A|].
  exact (plus_minus_scalar_round_trip arrayA 10%Z memAB 2 2
           memAB_allocated_A).
Defined.

Lemma scalar_assign_keeps_shape_and_frame_witness :
  ∃ m', final_memory (operator_plus_assign_scalar arrayA 10%Z memAB) = Some m' ∧
        rows arrayA m' = rows arrayA memAB ∧
        cols arrayA m' = cols arrayA memAB ∧
        size arrayA m' = size arrayA memAB.
Proof.
  destruct (final_memory (operator_plus_assign_scalar arrayA 10%Z memAB))
    as [m'|] eqn:E.
  - exists m'. split; [reflexivity|].
    exact (proj1 (scalar_assign_keeps_shape_and_frame arrayA 10%Z) memAB m' E).
  - vm_compute in E. discriminate E.
Defined.

Lemma compound_assign_is_assign_of_node_witness :
  compatible arrayA arrayB memAB 2 2 ∧
  same_index_only (Scalar:=Z) arrayA arrayB ∧
  operator_plus_assign arrayA arrayB memAB
  = (e ← operator_plus arrayA arrayB; DenseBase_operator_assign arrayA e) memAB.
Proof.
  split; [exact memAB_compatible|].
  split; [exact (Array_same_index_only arrayA arrayB)|].
  exact (proj1 (compound_assign_is_assign_of_node arrayA arrayB memAB 2 2
                  memAB_compatible (Array_same_index_only arrayA arrayB))).
Defined.

Lemma plus_minus_assign_round_trip_witness :
  compatible arrayA arrayB memAB 2 2 ∧
  independent_of (Scalar:=Z) arrayA arrayB ∧
  (x ← operator_plus_assign arrayA arrayB; operator_minus_assign x arrayB) memAB
  = Done arrayA memAB.
Proof.
  split; [exact memAB_compatible|]. split; [exact arrayB_independent_of_A|].
  exact (plus_minus_assign_round_trip arrayA arrayB memAB 2 2
           memAB_compatible arrayB_independent_of_A).
Defined.

Lemma plus_assign_twice_witness :
  (∀ x y z : Z, ei_scalar_sum_op (ei_scalar_sum_op x y) z
                = ei_scalar_sum_op x (ei_scalar_sum_op y z)) ∧
  compatible arrayA arrayB memAB 2 2 ∧
  compatible arrayA arrayD memAB 2 2 ∧
  independent_of (Scalar:=Z) arrayA arrayB ∧
  independent_of (Scalar:=Z) arrayA arrayD ∧
  (x ← operator_plus_assign arrayA arrayB; operator_plus_assign x arrayD) memAB
  = (e ← operator_plus arrayB arrayD; operator_plus_assign arrayA e) memAB.
Proof.
  assert (∀ x y z : Z, ei_scalar_sum_op (ei_scalar_sum_op x y) z
                       = ei_scalar_sum_op x (ei_scalar_sum_op y z)) as Hassoc.
  { intros x y z. simpl. lia. }
  split; [exact Hassoc|].
  split; [exact memAB_compatible|]. split; [exact memAB_compatible_D|].
  split; [exact arrayB_independent_of_A|].
  split; [exact arrayD_independent_of_A|].
  exact (plus_assign_twice arrayA arrayB arrayD memAB 2 2 Hassoc
           memAB_compatible memAB_compatible_D
           arrayB_independent_of_A arrayD_independent_of_A).
Defined.

Lemma self_aliased_compound_assign_witness :
  allocated arrayA memAB 2 2 ∧
  ∃ m', operator_plus_assign arrayA arrayA memAB = Done arrayA m' ∧
        ∀ i j, i < 2 → j < 2 →
          ∃ a, coeff arrayA memAB i j = Some a ∧
               coeff arrayA m' i j = Some (ei_scalar_sum_op a a).
Proof.
  split; [exact memAB_allocated_A|].
  exact (proj1 (self_aliased_compound_assign arrayA memAB 2 2
                  memAB_allocated_A)).
Defined.

Lemma self_assign_is_noop_witness :
  allocated arrayA memAB 2 2 ∧
  operator_assign arrayA arrayA memAB = Done arrayA memAB.
Proof.
  split; [exact memAB_allocated_A|].
  exact (self_assign_is_noop arrayA memAB 2 2 memAB_allocated_A).
Defined.

Lemma assignments_touch_only_destination_witness :
  ∃ m', final_memory (operator_times_assign arrayA arrayB memAB) = Some m' ∧
        m' !! m_storage arrayB = memAB !! m_storage arrayB.
Proof.
  destruct (final_memory (operator_times_assign arrayA arrayB memAB))
    as [m'|] eqn:E.
  - exists m'. split; [reflexivity|].
    destruct (assignments_touch_only_destination arrayA arrayB arrayB)
      as (_ & _ & Htimes & _).
    apply (Htimes memAB m' E). discriminate.
  - vm_compute in E. discriminate E.
Defined.

Lemma compound_assign_aborts_only_on_mismatch_witness :
  operator_plus_assign arrayC arrayA memAB = AssertFailed memAB ∧
  ∃ sd ss, shape arrayC memAB = Some sd ∧ shape arrayA memAB = Some ss ∧
           sd ≠ ss.
Proof.
  assert (operator_plus_assign arrayC arrayA memAB = AssertFailed memAB)
    as Hab by reflexivity.
  split; [exact Hab|].
  exact (proj2 (compound_assign_aborts_only_on_mismatch arrayC arrayA
                  memAB memAB (or_introl Hab))).
Defined.

Lemma scalar_assign_never_asserts_witness :
  operator_plus_assign_scalar arrayA 10%Z memAB ≠ AssertFailed memAB ∧
  operator_minus_assign_scalar arrayA 10%Z memAB ≠ AssertFailed memAB.
Proof.
  exact (conj (proj1 (scalar_assign_never_asserts arrayA 10%Z) memAB memAB)
              (proj2 (scalar_assign_never_asserts arrayA 10%Z) memAB memAB)).
Defined.

(** ** Floating-point scalars and the sum/difference round trip *)

Section FloatingPoint.
#[local] Existing Instance float_NumTraits.




(** Without overflow too: with A = [[1]] and B = [[2^60]] the coefficient of
    [(A + B) - B] is exactly 0. *)
Example sum_then_difference_absorbs :
  ∃ e, (s ← operator_plus arrayA arrayB; operator_minus s arrayB) memAbsorb
       = Done e memAbsorb ∧
       coeff arrayA memAbsorb 0 0 = Some 1%float ∧
       coeff e memAbsorb 0 0 = Some 0%float.
Proof. eexists. split; [vm_compute; reflexivity|]. split; reflexivity. Qed.

End FloatingPoint.
